(** * Bulk-load submission and status polling of [GenerateNode]

    A shallow embedding of
    [src/db_services/aws_netpune/graph_loader.py]: the two static methods
    [create_node] and [upsert_node], which post a load request to the graph
    loader endpoint and then poll the load status a bounded number of times.

    The remote endpoint, the clock and the logger are the only effects of
    the two methods.  They are modelled by a trace of events threaded
    through an error monad; the answers of the endpoint come from an
    oracle. *)

From Stdlib Require Import ZArith String List Lia.
From stdpp Require Import base option list strings gmap.

Local Open Scope string_scope.
Local Open Scope list_scope.
Local Open Scope Z_scope.

(** ** Decoded JSON documents *)

#[local] Set Warnings "-register-all".

(** What [resp.json()] returns.  An object is a Python [dict] with string
    keys. *)
Inductive json : Type :=
| JNull
| JBool (b : bool)
| JNum (z : Z)
| JStr (s : string)
| JArr (items : list json)
| JObj (fields : gmap string json).

(** ** Exceptions *)

(** An [Exception] carries its arguments; [KeyError] carries the missing
    key; the message of a [TypeError] is not kept. *)
Inductive exn : Type :=
| Exception (args : list json)
| KeyError (key : string)
| TypeError.

(** [container[key]] for a string [key]: a [dict] answers or raises
    [KeyError]; every other JSON value raises [TypeError] (lists and strings
    want integer indices, the rest is not subscriptable). *)
Definition subscript (container : json) (key : string) : exn + json :=
  match container with
  | JObj fields =>
      match fields !! key with
      | Some v => inr v
      | None => inl (KeyError key)
      end
  | _ => inl TypeError
  end.

(** [value == text] for a decoded JSON [value] and a [str]. *)
Definition py_eq_str (value : json) (text : string) : bool :=
  match value with
  | JStr s => bool_decide (s = text)
  | _ => false
  end.

(** [value in texts] for a list of [str]. *)
Definition py_in (value : json) (texts : list string) : bool :=
  existsb (py_eq_str value) texts.

(** [range(limit)]: the number of iterations, or the [TypeError] of a
    [limit] that is [None]. *)
Definition py_range (limit : option Z) : exn + nat :=
  match limit with
  | None => inl TypeError
  | Some n => inr (Z.to_nat n)
  end.

(** [str.format] of an optional string: [None] prints as ["None"]. *)
Definition py_format_opt (s : option string) : string :=
  match s with
  | Some s => s
  | None => "None"
  end.

(** ** The endpoint, the clock and the logger *)

(** A response of [Rest]: its [status_code] and its decoded body, the value
    of [resp.json()].  The class [Rest] is not part of the sources; a request
    is taken to yield a response always. *)
Record response : Type := Response {
  status_code : Z;
  resp_json : json
}.

Inductive event : Type :=
| EvPost (url : string) (payload : gmap string string)
| EvGet (url : string) (resp : response)
| EvSleep (seconds : Z)
| EvInfo (message : string)
| EvError (message : string).

(** The responses received by the status fetches of a trace, oldest first. *)
Definition fetched (t : list event) : list response :=
  omap (fun e => match e with EvGet _ r => Some r | _ => None end) t.

(** The number of status fetches of a trace. *)
Definition fetches (t : list event) : nat := length (fetched t).

(** The records logged at error level. *)
Definition error_logs (t : list event) : list string :=
  omap (fun e => match e with EvError m => Some m | _ => None end) t.

(** The pauses of a trace, in seconds. *)
Definition sleeps (t : list event) : list Z :=
  omap (fun e => match e with EvSleep s => Some s | _ => None end) t.

(** ** The monad: a trace and an exception *)

Definition M (A : Type) : Type := list event -> list event * (exn + A).

Definition ret {A} (a : A) : M A := fun t => (t, inr a).

Definition raise {A} (e : exn) : M A := fun t => (t, inl e).

Definition bind {A B} (m : M A) (f : A -> M B) : M B :=
  fun t =>
    match m t with
    | (t', inr a) => f a t'
    | (t', inl e) => (t', inl e)
    end.

Definition lift {A} (r : exn + A) : M A :=
  match r with
  | inr a => ret a
  | inl e => raise e
  end.

Definition emit (e : event) : M unit := fun t => (t ++ [e], inr tt).

#[export] Instance M_ret : MRet M := @ret.
#[export] Instance M_bind : MBind M := fun A B f m => bind m f.

Definition HTTP_OK : Z := 200.

Definition sleep (seconds : Z) : M unit := emit (EvSleep seconds).
Definition Logging_info (message : string) : M unit := emit (EvInfo message).
Definition Logging_error (message : string) : M unit := emit (EvError message).

(** ** What the module imports *)

(** The names imported from [rplus_constants]; the package is not part of
    the sources, so their values are parameters. *)
Class RplusConstants : Type := {
  IAMROLE_ID : string;
  LOAD_ID : string;
  PAYLOAD : string;
  OVERALLSTATUS : string;
  STATUS : string;
  LOAD_FAILED : string;
  LOAD_IN_QUEUE : string;
  LOAD_COMPLETED : string
}.

(** The attributes of [config] that the two methods read. *)
Class Config : Type := {
  s3_bucket_name : string;
  region_name : string
}.

(** [str] (as applied by ["{}".format]) and [json.dumps] on decoded JSON. *)
Class Builtins : Type := {
  py_str : json -> string;
  json_dumps : json -> string
}.

(** The endpoint behind [Rest]: the answer to a [post], and the answer to
    the [n]-th [get] of a call (counted from 0). *)
Class Endpoint : Type := {
  post_answer : string -> gmap string string -> response;
  get_answer : nat -> string -> response
}.

(** The two methods differ by the payload and by the logging of a failed
    load; [mode] names them. *)
Inductive mode : Type := CREATE | UPSERT.

Section GenerateNode.
Context {constants : RplusConstants} {config : Config}
  {builtins : Builtins} {endpoint : Endpoint}.

Definition rest_post (url : string) (payload : gmap string string) : M response :=
  fun t => (t ++ [EvPost url payload], inr (post_answer url payload)).

Definition rest_get (url : string) : M response :=
  fun t =>
    let resp := get_answer (fetches t) url in
    (t ++ [EvGet url resp], inr resp).

(** [response[PAYLOAD][LOAD_ID]] *)
Definition load_id (response : json) : exn + json :=
  match subscript response PAYLOAD with
  | inr p => subscript p LOAD_ID
  | inl e => inl e
  end.

(** [response[PAYLOAD][OVERALLSTATUS][STATUS]] *)
Definition overall_status (response : json) : exn + json :=
  match subscript response PAYLOAD with
  | inr p =>
      match subscript p OVERALLSTATUS with
      | inr o => subscript o STATUS
      | inl e => inl e
      end
  | inl e => inl e
  end.

(** The list [[LOAD_COMPLETED, LOAD_FAILED, LOAD_IN_QUEUE]] of both loops. *)
Definition stopping : list string := [LOAD_COMPLETED; LOAD_FAILED; LOAD_IN_QUEUE].

(** *** [create_node] *)

Definition create_payload (key : option string) : gmap string string :=
  <["updateSingleCardinalityProperties" := "FALSE"]>
  (<["queueRequest" := "TRUE"]>
  (<["parallelism" := "MEDIUM"]>
  (<["failOnError" := "FALSE"]>
  (<["region" := region_name]>
  (<["iamRoleArn" := "arn:aws:iam::" +:+ IAMROLE_ID +:+ ":role/NeptuneAccessS3"]>
  (<["mode" := "AUTO"]>
  (<["format" := "csv"]>
  (<["source" := "s3://" +:+ s3_bucket_name +:+ "/" +:+ py_format_opt key]>
   ∅)))))))).

(** The [for iteration in range(limit)] loop of [create_node];
    [iterations] counts the iterations left and [response] is the variable
    of that name, which the loop overwrites and the [return] reads. *)
Fixpoint create_node_loop (url : string) (queue_id : json)
    (iterations : nat) (response : json) : M json :=
  match iterations with
  | O => mret response
  | S remaining =>
      let temp_url := url +:+ "/" +:+ py_str queue_id in
      resp ← rest_get temp_url;
      if negb (status_code resp =? HTTP_OK)
      then raise (Exception [JStr "error fetching status neptune"])
      else
        sleep 1;;
        let response := resp_json resp in
        Logging_info ("status neptune -> " +:+ json_dumps response);;
        status ← lift (overall_status response);
        if negb (py_in status stopping)
        then sleep 3;; create_node_loop url queue_id remaining response
        else mret response
  end.

Definition create_node (limit : option Z) (key : option string) (url : string)
    : M json :=
  let payload := create_payload key in
  resp ← rest_post url payload;
  sleep 2;;
  if negb (status_code resp =? HTTP_OK)
  then raise (Exception [JStr "Error to post neptune -> "; resp_json resp])
  else
    let response := resp_json resp in
    queue_id ← lift (load_id response);
    iterations ← lift (py_range limit);
    response ← create_node_loop url queue_id iterations response;
    lift (overall_status response).

(** *** [upsert_node] *)

Definition upsert_payload (key : option string) : gmap string string :=
  <["updateSingleCardinalityProperties" := "TRUE"]>
  (<["parallelism" := "MEDIUM"]>
  (<["failOnError" := "FALSE"]>
  (<["region" := region_name]>
  (<["iamRoleArn" := "arn:aws:iam::" +:+ IAMROLE_ID +:+ ":role/NeptuneAccessS3"]>
  (<["mode" := "AUTO"]>
  (<["format" := "csv"]>
  (<["source" := "s3://" +:+ s3_bucket_name +:+ "/" +:+ py_format_opt key]>
   ∅))))))).

(** The loop of [upsert_node]: as in [create_node], and a stopping status
    equal to [LOAD_FAILED] is logged at error level before the [break]. *)
Fixpoint upsert_node_loop (url : string) (queue_id : json)
    (iterations : nat) (response : json) : M json :=
  match iterations with
  | O => mret response
  | S remaining =>
      let temp_url := url +:+ "/" +:+ py_str queue_id in
      resp ← rest_get temp_url;
      if negb (status_code resp =? HTTP_OK)
      then raise (Exception [JStr "error fetching status neptune"])
      else
        sleep 1;;
        let response := resp_json resp in
        Logging_info ("status neptune -> " +:+ json_dumps response);;
        status ← lift (overall_status response);
        if negb (py_in status stopping)
        then sleep 3;; upsert_node_loop url queue_id remaining response
        else
          status' ← lift (overall_status response);
          if py_eq_str status' LOAD_FAILED
          then Logging_error ("status neptune -> " +:+ json_dumps response);;
               mret response
          else mret response
  end.

Definition upsert_node (limit : option Z) (key : option string) (url : string)
    : M json :=
  let payload := upsert_payload key in
  resp ← rest_post url payload;
  sleep 2;;
  if negb (status_code resp =? HTTP_OK)
  then raise (Exception [JStr "Error to post neptune -> "; resp_json resp])
  else
    let response := resp_json resp in
    queue_id ← lift (load_id response);
    iterations ← lift (py_range limit);
    response ← upsert_node_loop url queue_id iterations response;
    lift (overall_status response).


(** *** The two methods, by [mode] *)

Definition generate_node (m : mode) : option Z -> option string -> string -> M json :=
  match m with
  | CREATE => create_node
  | UPSERT => upsert_node
  end.

Definition request_payload (m : mode) (key : option string) : gmap string string :=
  match m with
  | CREATE => create_payload key
  | UPSERT => upsert_payload key
  end.

Definition logs_failure (m : mode) : bool :=
  match m with
  | CREATE => false
  | UPSERT => true
  end.

(** ** Runs *)

(** A response whose status is read and is outside the stopping list. *)
Definition transitional (r : response) : Prop :=
  status_code r = HTTP_OK /\
  exists st, overall_status (resp_json r) = inr st /\ py_in st stopping = false.

(** A response whose status is read and is the string [c]. *)
Definition reports (r : response) (c : string) : Prop :=
  status_code r = HTTP_OK /\ overall_status (resp_json r) = inr (JStr c).

(** The events of one iteration up to the classification of the status. *)
Definition polled (u : string) (r : response) : list event :=
  [EvGet u r; EvSleep 1;
   EvInfo ("status neptune -> " +:+ json_dumps (resp_json r))].

(** The events of [k] iterations that all see a transitional status, the
    first of them being fetch number [c] of the call. *)
Definition transitional_rounds (u : string) (c k : nat) : list event :=
  flat_map (fun i => polled u (get_answer i u) ++ [EvSleep 3]) (seq c k).

(** The value of the variable [response] after the events [t], when it held
    [response] before them. *)
Definition last_json (response : json) (t : list event) : json :=
  match last (fetched t) with
  | Some r => resp_json r
  | None => response
  end.

(** How an iteration that is not transitional ends the loop at the response
    [r]: the events it adds and the result of the loop.  [log_failed] tells
    the loop of [upsert_node] from the loop of [create_node]. *)
Inductive loop_end (log_failed : bool) (u : string) (r : response)
  : list event -> exn + json -> Prop :=
| end_http_error :
    status_code r <> HTTP_OK ->
    loop_end log_failed u r [EvGet u r]
      (inl (Exception [JStr "error fetching status neptune"]))
| end_lookup_error e :
    status_code r = HTTP_OK ->
    overall_status (resp_json r) = inl e ->
    loop_end log_failed u r (polled u r) (inl e)
| end_stop st :
    status_code r = HTTP_OK ->
    overall_status (resp_json r) = inr st ->
    py_in st stopping = true ->
    loop_end log_failed u r
      (polled u r ++
       (if log_failed && py_eq_str st LOAD_FAILED
        then [EvError ("status neptune -> " +:+ json_dumps (resp_json r))]
        else []))
      (inr (resp_json r)).

(** [poll_run log_failed u c n response tr res]: a loop that may still do
    [n] iterations, whose next fetch is number [c] of the call and whose
    variable [response] holds [response], adds the events [tr] and ends
    with [res], the final value of [response] or the exception raised. *)
Inductive poll_run (log_failed : bool) (u : string)
  : nat -> nat -> json -> list event -> exn + json -> Prop :=
| run_exhausted c response :
    poll_run log_failed u c O response [] (inr response)
| run_round c n response tr res :
    transitional (get_answer c u) ->
    poll_run log_failed u (S c) n (resp_json (get_answer c u)) tr res ->
    poll_run log_failed u c (S n) response
      (polled u (get_answer c u) ++ [EvSleep 3] ++ tr) res
| run_end c n response tail res :
    ~ transitional (get_answer c u) ->
    loop_end log_failed u (get_answer c u) tail res ->
    poll_run log_failed u c (S n) response tail res.

(** The events of a submission. *)
Definition submitted (url : string) (payload : gmap string string) : list event :=
  [EvPost url payload; EvSleep 2].

(** The [return] after the loop, applied to the result of the loop. *)
Definition returned (res : exn + json) : exn + json :=
  match res with
  | inr response => overall_status response
  | inl e => inl e
  end.

(** [call_run log_failed payload limit url t res]: a call that posts
    [payload] to [url] with the budget [limit] leaves the trace [t] and ends
    with [res]. *)
Inductive call_run (log_failed : bool) (payload : gmap string string)
    (limit : option Z) (url : string) : list event -> exn + json -> Prop :=
| call_rejected :
    status_code (post_answer url payload) <> HTTP_OK ->
    call_run log_failed payload limit url (submitted url payload)
      (inl (Exception [JStr "Error to post neptune -> ";
                       resp_json (post_answer url payload)]))
| call_without_id e :
    status_code (post_answer url payload) = HTTP_OK ->
    load_id (resp_json (post_answer url payload)) = inl e ->
    call_run log_failed payload limit url (submitted url payload) (inl e)
| call_without_limit q :
    status_code (post_answer url payload) = HTTP_OK ->
    load_id (resp_json (post_answer url payload)) = inr q ->
    limit = None ->
    call_run log_failed payload limit url (submitted url payload) (inl TypeError)
| call_polled q n tr res :
    status_code (post_answer url payload) = HTTP_OK ->
    load_id (resp_json (post_answer url payload)) = inr q ->
    limit = Some n ->
    poll_run log_failed (url +:+ "/" +:+ py_str q) 0 (Z.to_nat n)
      (resp_json (post_answer url payload)) tr res ->
    call_run log_failed payload limit url (submitted url payload ++ tr)
      (returned res).


(** The submission of mode [m] is accepted and yields the load id [q]. *)
Definition accepted (m : mode) (key : option string) (url : string) (q : json) : Prop :=
  status_code (post_answer url (request_payload m key)) = HTTP_OK /\
  load_id (resp_json (post_answer url (request_payload m key))) = inr q.

(** The URL of the status fetches: ["{}/{}".format(url, queue_id)]. *)
Definition status_url (url : string) (q : json) : string :=
  url +:+ "/" +:+ py_str q.

(** The answer to a submission as the loader gives it: an object whose
    [PAYLOAD] holds the load id [q] and no overall status. *)
Definition bare_submission (j q : json) : Prop :=
  exists (fields p : gmap string json),
    j = JObj fields /\
    fields !! PAYLOAD = Some (JObj p) /\
    p !! LOAD_ID = Some q /\
    p !! OVERALLSTATUS = None.

End GenerateNode.

(** ** A scripted endpoint *)

(** Concrete values for what the module imports, used to run the two
    methods: the names of the loader's JSON fields and status strings, and
    an endpoint that accepts every submission with [accepted_response] and
    answers the [n]-th status fetch with the [n]-th element of a script
    (a load in progress once the script is over). *)
Definition loader_constants : RplusConstants := {|
  IAMROLE_ID := "123456789012";
  LOAD_ID := "loadId";
  PAYLOAD := "payload";
  OVERALLSTATUS := "overallStatus";
  STATUS := "status";
  LOAD_FAILED := "LOAD_FAILED";
  LOAD_IN_QUEUE := "LOAD_IN_QUEUE";
  LOAD_COMPLETED := "LOAD_COMPLETED"
|}.

Definition sample_config : Config := {|
  s3_bucket_name := "bucket";
  region_name := "us-east-1"
|}.

Definition sample_builtins : Builtins := {|
  py_str := fun j => match j with JStr s => s | _ => "?" end;
  json_dumps := fun j =>
    match j with
    | JObj _ => "{...}"
    | _ => "?"
    end
|}.

Definition accepted_response : response :=
  Response 200 (JObj {[ "payload" := JObj {[ "loadId" := JStr "load-1" ]} ]}).

Definition rejected_response : response :=
  Response 400 (JObj {[ "message" := JStr "bad request" ]}).

Definition status_response (status : string) : response :=
  Response 200
    (JObj {[ "payload" :=
       JObj {[ "overallStatus" := JObj {[ "status" := JStr status ]} ]} ]}).

Definition scripted (post : response) (script : list response) : Endpoint := {|
  post_answer := fun _ _ => post;
  get_answer := fun n _ => nth n script (status_response "LOAD_IN_PROGRESS")
|}.

(** A call against the scripted endpoint. *)
Definition sample_call (post : response) (script : list response) (m : mode)
    (limit : option Z) : list event * (exn + json) :=
  @generate_node loader_constants sample_config sample_builtins
    (scripted post script) m limit (Some "nodes.csv") "https://loader" [].

Definition in_progress : response := status_response "LOAD_IN_PROGRESS".

(** The script of the three answers in progress, in progress, failed. *)
Definition failing_script : list response :=
  [in_progress; in_progress; status_response "LOAD_FAILED"].

(** A status answer with status 200 whose [payload] holds no overall
    status, an accepted submission whose body holds no load id, and an
    answer with status 500. *)
Definition malformed_status : response :=
  Response 200 (JObj {[ "payload" := JObj ∅ ]}).

Definition acceptance_without_id : response :=
  Response 200 (JObj {[ "payload" := JObj ∅ ]}).

Definition server_error : response := Response 500 JNull.

(** ** Further observations of a trace *)

(** The records logged at info level. *)
Definition info_logs (t : list event) : list string :=
  omap (fun e => match e with EvInfo m => Some m | _ => None end) t.

(** The submissions of a trace: the URL and the payload of each [post]. *)
Definition posts (t : list event) : list (string * gmap string string) :=
  omap (fun e => match e with EvPost u p => Some (u, p) | _ => None end) t.

(** The URLs of the status fetches of a trace. *)
Definition fetch_urls (t : list event) : list string :=
  omap (fun e => match e with EvGet u _ => Some u | _ => None end) t.

(** The seconds a trace spends in [time.sleep]. *)
Definition total_pause (t : list event) : Z := foldr Z.add 0 (sleeps t).

(** The text both loops log for a status response. *)
Definition status_message {builtins : Builtins} (r : response) : string :=
  "status neptune -> " +:+ json_dumps (resp_json r).

(** The test of [upsert_node] before it logs at error level, on a
    response: the status is 200 and the overall status is [LOAD_FAILED]. *)
Definition reports_failed {constants : RplusConstants} (r : response) : bool :=
  (status_code r =? HTTP_OK) &&
  match overall_status (resp_json r) with
  | inr st => py_eq_str st LOAD_FAILED
  | inl _ => false
  end.

(** The budget as a number of iterations: what [range(limit)] yields, and
    nothing for a [limit] the loop is never reached with. *)
Definition budget (limit : option Z) : nat :=
  match limit with
  | Some n => Z.to_nat n
  | None => 0
  end.

(** * Properties *)

Section Properties.
Context {constants : RplusConstants} {config : Config}
  {builtins : Builtins} {endpoint : Endpoint}.

(** ** Traces *)

Lemma fetched_app (t1 t2 : list event) :
  fetched (t1 ++ t2) = fetched t1 ++ fetched t2.
Proof. unfold fetched. apply omap_app. Qed.

Lemma fetches_app (t1 t2 : list event) :
  fetches (t1 ++ t2) = (fetches t1 + fetches t2)%nat.
Proof. unfold fetches. now rewrite fetched_app, length_app. Qed.

Lemma error_logs_app (t1 t2 : list event) :
  error_logs (t1 ++ t2) = error_logs t1 ++ error_logs t2.
Proof. unfold error_logs. apply omap_app. Qed.

Lemma sleeps_app (t1 t2 : list event) :
  sleeps (t1 ++ t2) = sleeps t1 ++ sleeps t2.
Proof. unfold sleeps. apply omap_app. Qed.

Lemma py_in_str (c : string) (texts : list string) :
  py_in (JStr c) texts = true <-> c ∈ texts.
Proof.
  unfold py_in. rewrite existsb_exists. split.
  - intros (x & Hx & Heq). simpl in Heq. apply bool_decide_eq_true in Heq.
    subst x. now apply list_elem_of_In.
  - intros Hc. exists c. split; [now apply list_elem_of_In|].
    simpl. now apply bool_decide_eq_true.
Qed.


Ltac run_step :=
  unfold mbind, M_bind, bind, rest_get, rest_post, sleep, Logging_info,
    Logging_error, emit, mret, M_ret, ret, raise, lift;
  cbn beta iota.

Ltac code_ok Hcode :=
  rewrite Hcode; cbn [Z.eqb HTTP_OK Pos.eqb negb].

Ltac code_bad Hcode :=
  rewrite (proj2 (Z.eqb_neq _ _) Hcode); cbn [negb].


(** *** One iteration of [create_node] *)

Lemma create_step_transitional u q n response t :
  let r := get_answer (fetches t) (u +:+ "/" +:+ py_str q) in
  transitional r ->
  create_node_loop u q (S n) response t =
  create_node_loop u q n (resp_json r)
    (t ++ polled (u +:+ "/" +:+ py_str q) r ++ [EvSleep 3]).
Proof.
  intros r (Hcode & st & Hst & Hin).
  cbn [create_node_loop]. run_step. fold r. code_ok Hcode.
  rewrite Hst. run_step. rewrite Hin. cbn [negb].
  unfold polled. rewrite <- !app_assoc. reflexivity.
Qed.

Lemma create_step_end u q n response t :
  let r := get_answer (fetches t) (u +:+ "/" +:+ py_str q) in
  ~ transitional r ->
  exists tail res,
    loop_end false (u +:+ "/" +:+ py_str q) r tail res /\
    create_node_loop u q (S n) response t = (t ++ tail, res).
Proof.
  intros r Hnot.
  cbn [create_node_loop]. run_step. fold r.
  destruct (decide (status_code r = HTTP_OK)) as [Hcode|Hcode].
  - code_ok Hcode.
    destruct (overall_status (resp_json r)) as [e|st] eqn:Hst; run_step.
    + eexists _, _. split; [apply end_lookup_error; eassumption|].
      unfold polled. rewrite <- !app_assoc. reflexivity.
    + destruct (py_in st stopping) eqn:Hin; cbn [negb].
      * eexists _, _. split; [apply (end_stop false _ _ st); eassumption|].
        cbn [andb]. rewrite app_nil_r.
        unfold polled. rewrite <- !app_assoc. reflexivity.
      * exfalso. apply Hnot. split; [done|]. now exists st.
  - eexists _, _. split; [apply end_http_error; eassumption|].
    code_bad Hcode. reflexivity.
Qed.

(** *** One iteration of [upsert_node] *)

Lemma upsert_step_transitional u q n response t :
  let r := get_answer (fetches t) (u +:+ "/" +:+ py_str q) in
  transitional r ->
  upsert_node_loop u q (S n) response t =
  upsert_node_loop u q n (resp_json r)
    (t ++ polled (u +:+ "/" +:+ py_str q) r ++ [EvSleep 3]).
Proof.
  intros r (Hcode & st & Hst & Hin).
  cbn [upsert_node_loop]. run_step. fold r. code_ok Hcode.
  rewrite Hst. run_step. rewrite Hin. cbn [negb].
  unfold polled. rewrite <- !app_assoc. reflexivity.
Qed.

Lemma upsert_step_end u q n response t :
  let r := get_answer (fetches t) (u +:+ "/" +:+ py_str q) in
  ~ transitional r ->
  exists tail res,
    loop_end true (u +:+ "/" +:+ py_str q) r tail res /\
    upsert_node_loop u q (S n) response t = (t ++ tail, res).
Proof.
  intros r Hnot.
  cbn [upsert_node_loop]. run_step. fold r.
  destruct (decide (status_code r = HTTP_OK)) as [Hcode|Hcode].
  - code_ok Hcode.
    destruct (overall_status (resp_json r)) as [e|st] eqn:Hst; run_step.
    + eexists _, _. split; [apply end_lookup_error; eassumption|].
      unfold polled. rewrite <- !app_assoc. reflexivity.
    + destruct (py_in st stopping) eqn:Hin; cbn [negb].
      * eexists _, _. split; [apply (end_stop true _ _ st); eassumption|].
        cbn [andb].
        destruct (py_eq_str st LOAD_FAILED);
          unfold polled; rewrite <- !app_assoc; reflexivity.
      * exfalso. apply Hnot. split; [done|]. now exists st.
  - eexists _, _. split; [apply end_http_error; eassumption|].
    code_bad Hcode. reflexivity.
Qed.

Lemma transitional_dec (r : response) : {transitional r} + {~ transitional r}.
Proof.
  unfold transitional.
  destruct (decide (status_code r = HTTP_OK)) as [Hcode|Hcode];
    [|right; tauto].
  destruct (overall_status (resp_json r)) as [e|st];
    [right; intros (_ & st & Hst & _); discriminate|].
  destruct (py_in st stopping) eqn:Hin.
  - right. intros (_ & st' & Hst & Hin'). congruence.
  - left. eauto.
Defined.

Section Loop.
Variable log_failed : bool.
Variable loop : string -> json -> nat -> json -> M json.
Hypothesis loop_O : forall u q response t, loop u q O response t = (t, inr response).
Hypothesis loop_transitional : forall u q n response t,
  let r := get_answer (fetches t) (u +:+ "/" +:+ py_str q) in
  transitional r ->
  loop u q (S n) response t =
  loop u q n (resp_json r) (t ++ polled (u +:+ "/" +:+ py_str q) r ++ [EvSleep 3]).
Hypothesis loop_ends : forall u q n response t,
  let r := get_answer (fetches t) (u +:+ "/" +:+ py_str q) in
  ~ transitional r ->
  exists tail res,
    loop_end log_failed (u +:+ "/" +:+ py_str q) r tail res /\
    loop u q (S n) response t = (t ++ tail, res).

(** The loop is total, and what it does is a run. *)
Lemma loop_runs u q n : forall response t,
  exists tr res,
    poll_run log_failed (u +:+ "/" +:+ py_str q) (fetches t) n response tr res /\
    loop u q n response t = (t ++ tr, res).
Proof.
  induction n as [|n IH]; intros response t.
  - exists [], (inr response). split; [constructor|].
    now rewrite loop_O, app_nil_r.
  - set (temp_url := u +:+ "/" +:+ py_str q) in *.
    destruct (transitional_dec (get_answer (fetches t) temp_url)) as [Htr|Hend].
    + rewrite (loop_transitional u q n response t Htr). fold temp_url.
      set (r := get_answer (fetches t) temp_url) in *.
      destruct (IH (resp_json r) (t ++ polled temp_url r ++ [EvSleep 3]))
        as (tr & res & Hrun & Heq).
      rewrite fetches_app in Hrun.
      replace (fetches t + fetches (polled temp_url r ++ [EvSleep 3]))%nat
        with (S (fetches t)) in Hrun by (cbn; lia).
      exists (polled temp_url r ++ [EvSleep 3] ++ tr), res. split.
      * now apply run_round.
      * rewrite Heq. now rewrite <- !app_assoc.
    + destruct (loop_ends u q n response t Hend) as (tail & res & Hle & Heq).
      exists tail, res. split; [now apply run_end|exact Heq].
Qed.

End Loop.

Lemma create_node_loop_runs u q n response t :
  exists tr res,
    poll_run false (u +:+ "/" +:+ py_str q) (fetches t) n response tr res /\
    create_node_loop u q n response t = (t ++ tr, res).
Proof.
  apply (loop_runs false create_node_loop); intros.
  - reflexivity.
  - now apply create_step_transitional.
  - now apply create_step_end.
Qed.

Lemma upsert_node_loop_runs u q n response t :
  exists tr res,
    poll_run true (u +:+ "/" +:+ py_str q) (fetches t) n response tr res /\
    upsert_node_loop u q n response t = (t ++ tr, res).
Proof.
  apply (loop_runs true upsert_node_loop); intros.
  - reflexivity.
  - now apply upsert_step_transitional.
  - now apply upsert_step_end.
Qed.

Lemma returned_finish (t : list event) (res : exn + json) :
  (match res with
   | inl e => (t, inl e)
   | inr response => lift (overall_status response) t
   end) = (t, returned res).
Proof.
  destruct res as [e|response]; [reflexivity|].
  cbn [returned]. now destruct (overall_status response).
Qed.

Lemma create_node_call limit key url :
  call_run false (create_payload key) limit url
    (create_node limit key url []).1 (create_node limit key url []).2.
Proof.
  unfold create_node. run_step.
  set (resp := post_answer url (create_payload key)).
  destruct (decide (status_code resp = HTTP_OK)) as [Hcode|Hcode];
    [code_ok Hcode|code_bad Hcode; now apply call_rejected].
  destruct (load_id (resp_json resp)) as [e|q] eqn:Hid; run_step;
    [now apply call_without_id|].
  destruct limit as [n|]; cbn [py_range]; run_step;
    [|now apply (call_without_limit _ _ _ _ q)].
  destruct (create_node_loop_runs url q (Z.to_nat n) (resp_json resp)
              [EvPost url (create_payload key); EvSleep 2])
    as (tr & res & Hrun & Heq).
  cbn [app] in Heq |- *. rewrite Heq, returned_finish.
  now apply (call_polled _ _ _ _ q n).
Qed.

Lemma upsert_node_call limit key url :
  call_run true (upsert_payload key) limit url
    (upsert_node limit key url []).1 (upsert_node limit key url []).2.
Proof.
  unfold upsert_node. run_step.
  set (resp := post_answer url (upsert_payload key)).
  destruct (decide (status_code resp = HTTP_OK)) as [Hcode|Hcode];
    [code_ok Hcode|code_bad Hcode; now apply call_rejected].
  destruct (load_id (resp_json resp)) as [e|q] eqn:Hid; run_step;
    [now apply call_without_id|].
  destruct limit as [n|]; cbn [py_range]; run_step;
    [|now apply (call_without_limit _ _ _ _ q)].
  destruct (upsert_node_loop_runs url q (Z.to_nat n) (resp_json resp)
              [EvPost url (upsert_payload key); EvSleep 2])
    as (tr & res & Hrun & Heq).
  cbn [app] in Heq |- *. rewrite Heq, returned_finish.
  now apply (call_polled _ _ _ _ q n).
Qed.

(** *** What a run does *)

Lemma reports_not_transitional r code :
  reports r code -> code ∈ stopping -> ~ transitional r.
Proof.
  intros [_ Hst] Hin (_ & st & Hst' & Hnot).
  rewrite Hst in Hst'. injection Hst' as <-.
  apply py_in_str in Hin. congruence.
Qed.

Lemma fetched_rounds u c k :
  fetched (transitional_rounds u c k) = (fun i => get_answer i u) <$> seq c k.
Proof.
  revert c. induction k as [|k IH]; intros c; [reflexivity|].
  unfold transitional_rounds in *. cbn [seq flat_map].
  rewrite fetched_app, IH. reflexivity.
Qed.

Lemma fetches_rounds u c k : fetches (transitional_rounds u c k) = k.
Proof. unfold fetches. now rewrite fetched_rounds, length_fmap, length_seq. Qed.

Lemma error_logs_rounds u c k : error_logs (transitional_rounds u c k) = [].
Proof.
  revert c. induction k as [|k IH]; intros c; [reflexivity|].
  unfold transitional_rounds in *. cbn [seq flat_map].
  rewrite error_logs_app, IH. reflexivity.
Qed.

Lemma rounds_S u c k :
  transitional_rounds u c (S k) =
  (polled u (get_answer c u) ++ [EvSleep 3]) ++ transitional_rounds u (S c) k.
Proof. reflexivity. Qed.

Lemma last_json_rounds u c k response :
  last_json response (transitional_rounds u c (S k)) =
  resp_json (get_answer (c + k) u).
Proof.
  unfold last_json. rewrite fetched_rounds, seq_S, fmap_app.
  cbn [fmap list_fmap]. now rewrite last_snoc.
Qed.

Lemma last_json_round u r response tr :
  last_json response ((polled u r ++ [EvSleep 3]) ++ tr) =
  last_json (resp_json r) tr.
Proof.
  unfold last_json. rewrite fetched_app.
  change (fetched (polled u r ++ [EvSleep 3])) with [r].
  cbn [app]. rewrite last_cons. now destruct (last (fetched tr)).
Qed.

(** A run whose first [k] answers are transitional starts with [k]
    transitional rounds and goes on as a run of the iterations left. *)
Lemma poll_run_prefix lf u k : forall c m response tr res,
  poll_run lf u c (k + m) response tr res ->
  (forall i, (c <= i < c + k)%nat -> transitional (get_answer i u)) ->
  exists tr',
    tr = transitional_rounds u c k ++ tr' /\
    poll_run lf u (c + k) m (last_json response (transitional_rounds u c k)) tr' res.
Proof.
  induction k as [|k IH]; intros c m response tr res Hrun Hall.
  - exists tr. split; [reflexivity|]. now rewrite Nat.add_0_r.
  - cbn [Nat.add] in Hrun. inversion Hrun as [|? ? ? tr0 ? Htr Hrest|? ? ? ? ? Hnot]; subst.
    + destruct (IH (S c) m _ _ _ Hrest) as (tr' & -> & Hrun').
      { intros i Hi. apply Hall. lia. }
      exists tr'. split.
      * rewrite rounds_S. now rewrite <- !app_assoc.
      * rewrite rounds_S, last_json_round.
        now replace (c + S k)%nat with (S c + k)%nat by lia.
    + exfalso. apply Hnot, Hall. lia.
Qed.

(** A run whose next answer reports a stopping status ends there. *)
Lemma poll_run_stops lf u c n response tr res code :
  poll_run lf u c (S n) response tr res ->
  reports (get_answer c u) code ->
  code ∈ stopping ->
  tr = polled u (get_answer c u) ++
       (if lf && bool_decide (code = LOAD_FAILED)
        then [EvError ("status neptune -> " +:+ json_dumps (resp_json (get_answer c u)))]
        else []) /\
  res = inr (resp_json (get_answer c u)).
Proof.
  intros Hrun Hrep Hin.
  pose proof (reports_not_transitional _ _ Hrep Hin) as Hnot.
  destruct Hrep as [Hcode Hst].
  inversion Hrun as [| |? ? ? ? ? _ Hend]; subst; [contradiction|].
  inversion Hend as [Hbad|e _ Hst'|st _ Hst' _]; subst.
  - contradiction.
  - congruence.
  - rewrite Hst in Hst'. injection Hst' as <-. split; reflexivity.
Qed.

Lemma loop_end_fetched lf u r tail res :
  loop_end lf u r tail res -> fetched tail = [r].
Proof.
  intros Hend. destruct Hend; [reflexivity..|].
  rewrite fetched_app. now destruct (lf && py_eq_str st LOAD_FAILED).
Qed.

Lemma fetched_round u r tr :
  fetched (polled u r ++ [EvSleep 3] ++ tr) = r :: fetched tr.
Proof. reflexivity. Qed.

(** A run never fetches more often than its budget allows. *)
Lemma poll_run_budget lf u c n response tr res :
  poll_run lf u c n response tr res -> (fetches tr <= n)%nat.
Proof.
  unfold fetches.
  induction 1 as [|? ? ? ? ? _ _ IH|? ? ? ? ? _ Hend]; [cbn; lia| |].
  - rewrite fetched_round. cbn [length]. lia.
  - rewrite (loop_end_fetched _ _ _ _ _ Hend). cbn. lia.
Qed.

(** In a run, a fetch that reads a stopping status is the last fetch, and
    the loop ends with the response of that fetch. *)
Lemma poll_run_final lf u c n response tr res :
  poll_run lf u c n response tr res ->
  forall i r code,
    fetched tr !! i = Some r -> reports r code -> code ∈ stopping ->
    fetches tr = S i /\ res = inr (resp_json r).
Proof.
  unfold fetches.
  induction 1 as [|c n response tr res Htr _ IH|c n response tail res _ Hend];
    intros i r code Hi Hrep Hin.
  - discriminate.
  - rewrite fetched_round in Hi |- *. destruct i as [|i]; cbn in Hi.
    + injection Hi as <-.
      now destruct (reports_not_transitional _ _ Hrep Hin).
    + destruct (IH i r code Hi Hrep Hin) as [Hlen ->].
      cbn [length]. now rewrite Hlen.
  - rewrite (loop_end_fetched _ _ _ _ _ Hend) in Hi |- *.
    destruct i as [|i]; [|discriminate]. injection Hi as <-.
    split; [reflexivity|].
    destruct Hrep as [Hcode Hst].
    destruct Hend; [contradiction|congruence|reflexivity].
Qed.

(** In a run, a fetch answered by an HTTP error is the last event, and the
    loop ends with the exception. *)
Lemma poll_run_http_error lf u c n response tr res :
  poll_run lf u c n response tr res ->
  forall i r,
    fetched tr !! i = Some r -> status_code r <> HTTP_OK ->
    fetches tr = S i /\
    res = inl (Exception [JStr "error fetching status neptune"]) /\
    last tr = Some (EvGet u r).
Proof.
  unfold fetches.
  induction 1 as [|c n response tr res Htr _ IH|c n response tail res _ Hend];
    intros i r Hi Hbad.
  - discriminate.
  - rewrite fetched_round in Hi |- *. destruct i as [|i]; cbn in Hi.
    + injection Hi as <-. now destruct Htr.
    + destruct (IH i r Hi Hbad) as (Hlen & -> & Hlast).
      cbn [length]. rewrite Hlen.
      split; [reflexivity|]. split; [reflexivity|].
      rewrite !last_app, Hlast. reflexivity.
  - rewrite (loop_end_fetched _ _ _ _ _ Hend) in Hi |- *.
    destruct i as [|i]; [|discriminate]. injection Hi as <-.
    split; [reflexivity|].
    destruct Hend; [split; reflexivity|contradiction..].
Qed.


(** A run whose answers are all transitional uses up its budget. *)
Lemma poll_run_exhausts lf u c n response tr res :
  poll_run lf u c n response tr res ->
  (forall i, (c <= i < c + n)%nat -> transitional (get_answer i u)) ->
  tr = transitional_rounds u c n /\
  res = inr (last_json response (transitional_rounds u c n)).
Proof.
  intros Hrun Hall.
  pose proof (poll_run_prefix lf u n c 0 response tr res) as Hprefix.
  rewrite Nat.add_0_r in Hprefix.
  destruct (Hprefix Hrun Hall) as (tr' & -> & Hrest).
  inversion Hrest; subst. now rewrite app_nil_r.
Qed.

(** *** Calls *)

Lemma generate_node_call m limit key url :
  call_run (logs_failure m) (request_payload m key) limit url
    (generate_node m limit key url []).1 (generate_node m limit key url []).2.
Proof. destruct m; [apply create_node_call|apply upsert_node_call]. Qed.

Lemma accepted_polls m n key url q :
  accepted m key url q ->
  exists tr res,
    poll_run (logs_failure m) (status_url url q) 0 (Z.to_nat n)
      (resp_json (post_answer url (request_payload m key))) tr res /\
    (generate_node m (Some n) key url []).1 =
      submitted url (request_payload m key) ++ tr /\
    (generate_node m (Some n) key url []).2 = returned res.
Proof.
  intros [Hcode Hid].
  pose proof (generate_node_call m (Some n) key url) as Hcall.
  inversion Hcall as [Hbad|e _ Hid'|q' _ _ Hnone|q' n' tr res _ Hid' Hn Hrun Ht Hres];
    [contradiction|congruence|discriminate|].
  injection Hn as <-. rewrite Hid in Hid'. injection Hid' as <-.
  exists tr, res. auto.
Qed.

Lemma fetches_submitted url payload tr :
  fetches (submitted url payload ++ tr) = fetches tr.
Proof. reflexivity. Qed.

Lemma failed_stops : LOAD_FAILED ∈ stopping.
Proof. unfold stopping. set_solver. Qed.

Lemma completed_stops : LOAD_COMPLETED ∈ stopping.
Proof. unfold stopping. set_solver. Qed.

Lemma in_queue_stops : LOAD_IN_QUEUE ∈ stopping.
Proof. unfold stopping. set_solver. Qed.

(** ** The polling budget *)

(** C1: when the submission is accepted, the budget [n] is at least 1 and
    every status answer is transitional, a call does [n] transitional
    rounds, hence exactly [n] status fetches, and returns the status of the
    last answer, which is outside the stopping list and so is not
    [LOAD_FAILED]. *)
Theorem poll_budget_exhausted m n key url q :
  1 <= n ->
  accepted m key url q ->
  (forall i, (i < Z.to_nat n)%nat ->
     transitional (get_answer i (status_url url q))) ->
  let out := generate_node m (Some n) key url [] in
  out.1 = submitted url (request_payload m key) ++
          transitional_rounds (status_url url q) 0 (Z.to_nat n) /\
  fetches out.1 = Z.to_nat n /\
  exists st,
    overall_status
      (resp_json (get_answer (Z.to_nat n - 1) (status_url url q))) = inr st /\
    py_in st stopping = false /\
    st <> JStr LOAD_FAILED /\
    out.2 = inr st.
Proof.
  intros Hn Hacc Hall out.
  destruct (accepted_polls m n key url q Hacc) as (tr & res & Hrun & Ht & Hres).
  fold out in Ht, Hres.
  destruct (poll_run_exhausts _ _ _ _ _ _ _ Hrun) as [-> ->].
  { intros i Hi. apply Hall. lia. }
  rewrite Ht, fetches_submitted, fetches_rounds.
  split; [reflexivity|]. split; [reflexivity|].
  destruct (Z.to_nat n) as [|k] eqn:Hk; [lia|].
  destruct (Hall k) as (_ & st & Hst & Hin); [lia|].
  replace (S k - 1)%nat with k by lia.
  exists st. split; [exact Hst|]. split; [exact Hin|]. split.
  - intros ->. pose proof (proj2 (py_in_str _ _) failed_stops). congruence.
  - rewrite Hres, last_json_rounds. exact Hst.
Qed.

(** ** Stopping statuses *)

Lemma stops_at_first m n key url q code :
  1 <= n ->
  accepted m key url q ->
  reports (get_answer 0 (status_url url q)) code ->
  code ∈ stopping ->
  let out := generate_node m (Some n) key url [] in
  fetches out.1 = 1%nat /\
  sleeps out.1 = [2; 1] /\
  out.2 = inr (JStr code).
Proof.
  intros Hn Hacc Hrep Hin out.
  destruct (accepted_polls m n key url q Hacc) as (tr & res & Hrun & Ht & Hres).
  fold out in Ht, Hres.
  destruct (Z.to_nat n) as [|k] eqn:Hk; [lia|].
  destruct (poll_run_stops _ _ _ _ _ _ _ _ Hrun Hrep Hin) as [-> ->].
  rewrite Ht, Hres. cbn [returned]. destruct Hrep as [_ ->].
  rewrite fetches_submitted, !sleeps_app.
  unfold fetches. rewrite fetched_app.
  destruct (logs_failure m && bool_decide (code = LOAD_FAILED));
    split; try split; reflexivity.
Qed.

(** C3: when the submission is accepted, the budget is at least 1 and the
    first status answer reports [LOAD_IN_QUEUE], a call does one status
    fetch, pauses only for the 2 seconds after the submission and the
    1 second after the fetch (no 3-second pause), and returns
    [LOAD_IN_QUEUE]. *)
Theorem in_queue_stops_polling m n key url q :
  1 <= n ->
  accepted m key url q ->
  reports (get_answer 0 (status_url url q)) LOAD_IN_QUEUE ->
  let out := generate_node m (Some n) key url [] in
  fetches out.1 = 1%nat /\
  sleeps out.1 = [2; 1] /\
  out.2 = inr (JStr LOAD_IN_QUEUE).
Proof.
  intros Hn Hacc Hrep.
  exact (stops_at_first m n key url q _ Hn Hacc Hrep in_queue_stops).
Qed.

(** C4: when the submission is accepted, the budget is at least 1 and the
    first status answer reports [LOAD_COMPLETED], a call does one status
    fetch, pauses only for the 2 seconds after the submission and the
    1 second after the fetch (no 3-second pause), and returns
    [LOAD_COMPLETED]. *)
Theorem completed_at_first_fetch m n key url q :
  1 <= n ->
  accepted m key url q ->
  reports (get_answer 0 (status_url url q)) LOAD_COMPLETED ->
  let out := generate_node m (Some n) key url [] in
  fetches out.1 = 1%nat /\
  sleeps out.1 = [2; 1] /\
  out.2 = inr (JStr LOAD_COMPLETED).
Proof.
  intros Hn Hacc Hrep.
  exact (stops_at_first m n key url q _ Hn Hacc Hrep completed_stops).
Qed.

(** C5: when the submission is accepted, the budget is at least 3, the
    first two status answers are transitional and the third reports
    [LOAD_FAILED], a call does exactly 3 status fetches and returns
    [LOAD_FAILED]; [upsert_node] logs the third response once at error
    level and [create_node] logs nothing at error level. *)
Theorem failed_after_two_rounds m n key url q :
  3 <= n ->
  accepted m key url q ->
  transitional (get_answer 0 (status_url url q)) ->
  transitional (get_answer 1 (status_url url q)) ->
  reports (get_answer 2 (status_url url q)) LOAD_FAILED ->
  let out := generate_node m (Some n) key url [] in
  fetches out.1 = 3%nat /\
  out.2 = inr (JStr LOAD_FAILED) /\
  error_logs out.1 =
    match m with
    | CREATE => []
    | UPSERT =>
        ["status neptune -> " +:+
         json_dumps (resp_json (get_answer 2 (status_url url q)))]
    end.
Proof.
  intros Hn Hacc H0' H1' Hrep out.
  destruct (accepted_polls m n key url q Hacc) as (tr & res & Hrun & Ht & Hres).
  fold out in Ht, Hres.
  replace (Z.to_nat n) with (2 + S (Z.to_nat n - 3))%nat in Hrun by lia.
  destruct (poll_run_prefix _ _ _ _ _ _ _ _ Hrun) as (tr' & -> & Hrest).
  { intros i Hi. assert (i = 0 \/ i = 1)%nat as [-> | ->] by lia; assumption. }
  cbn [Nat.add] in Hrest.
  destruct (poll_run_stops _ _ _ _ _ _ _ _ Hrest Hrep failed_stops) as [-> ->].
  rewrite Ht, Hres. cbn [returned]. destruct Hrep as [_ ->].
  rewrite fetches_submitted, fetches_app, fetches_rounds.
  rewrite !error_logs_app, error_logs_rounds.
  rewrite bool_decide_eq_true_2 by reflexivity.
  unfold fetches. rewrite fetched_app.
  destruct m; split; try split; reflexivity.
Qed.

(** ** Errors *)

(** C6: when the answer to the submission does not have status 200, a call
    with any budget raises the exception with the message
    ["Error to post neptune -> "] and the body of the answer; the trace is
    the submission and its pause only, so there is no status fetch and no
    load id is read. *)
Theorem rejected_submission m limit key url :
  status_code (post_answer url (request_payload m key)) <> HTTP_OK ->
  let out := generate_node m limit key url [] in
  out.1 = submitted url (request_payload m key) /\
  fetches out.1 = 0%nat /\
  out.2 = inl (Exception [JStr "Error to post neptune -> ";
                          resp_json (post_answer url (request_payload m key))]).
Proof.
  intros Hbad out.
  pose proof (generate_node_call m limit key url) as Hcall. fold out in Hcall.
  inversion Hcall as [_ Ht Hres|e Hok|q Hok|q n tr res Hok];
    [|contradiction..].
  auto.
Qed.

Lemma call_fetched m limit key url :
  let out := generate_node m limit key url [] in
  fetched out.1 = [] \/
  exists q n tr res,
    limit = Some n /\
    poll_run (logs_failure m) (status_url url q) 0 (Z.to_nat n)
      (resp_json (post_answer url (request_payload m key))) tr res /\
    out.1 = submitted url (request_payload m key) ++ tr /\
    out.2 = returned res.
Proof.
  intros out.
  pose proof (generate_node_call m limit key url) as Hcall. fold out in Hcall.
  inversion Hcall as [_ Ht|e _ _ Ht|q _ _ _ Ht|q n tr res _ _ Hn Hrun Ht Hres];
    [left; reflexivity..|].
  right. exists q, n, tr, res. auto.
Qed.

(** C7: in every call, a status fetch whose answer does not have status 200
    is the last event of the trace: it is fetch number [i + 1] of exactly
    [i + 1] fetches, within the budget, nothing is logged or classified
    after it, and the call raises the exception with the message
    ["error fetching status neptune"]. *)
Theorem poll_error_aborts m limit key url :
  let out := generate_node m limit key url [] in
  forall i r,
    fetched out.1 !! i = Some r ->
    status_code r <> HTTP_OK ->
    fetches out.1 = S i /\
    (exists u, last out.1 = Some (EvGet u r)) /\
    (exists n, limit = Some n /\ (S i <= Z.to_nat n)%nat) /\
    out.2 = inl (Exception [JStr "error fetching status neptune"]).
Proof.
  intros out i r Hi Hbad.
  pose proof (call_fetched m limit key url) as Hcall.
  cbv zeta in Hcall. fold out in Hcall.
  destruct Hcall as [Hnone|(q & n & tr & res & -> & Hrun & Ht & Hres)].
  - rewrite Hnone in Hi. discriminate.
  - rewrite Ht in Hi |- *. change (fetched tr !! i = Some r) in Hi.
    destruct (poll_run_http_error _ _ _ _ _ _ _ Hrun i r Hi Hbad)
      as (Hlen & -> & Hlast).
    pose proof (poll_run_budget _ _ _ _ _ _ _ Hrun) as Hle.
    rewrite fetches_submitted, Hres.
    split; [exact Hlen|]. split; [|split; [|reflexivity]].
    + exists (status_url url q). now rewrite last_app, Hlast.
    + exists n. split; [reflexivity|lia].
Qed.

Lemma call_final m limit key url :
  let out := generate_node m limit key url [] in
  forall i r code,
    fetched out.1 !! i = Some r -> reports r code -> code ∈ stopping ->
    fetches out.1 = S i /\ out.2 = inr (JStr code).
Proof.
  intros out i r code Hi Hrep Hin.
  pose proof (call_fetched m limit key url) as Hcall.
  cbv zeta in Hcall. fold out in Hcall.
  destruct Hcall as [Hnone|(q & n & tr & res & -> & Hrun & Ht & Hres)].
  - rewrite Hnone in Hi. discriminate.
  - rewrite Ht in Hi |- *. change (fetched tr !! i = Some r) in Hi.
    destruct (poll_run_final _ _ _ _ _ _ _ Hrun i r code Hi Hrep Hin)
      as (Hlen & ->).
    rewrite fetches_submitted, Hres. cbn [returned].
    destruct Hrep as [_ ->]. auto.
Qed.

(** C8: in every call of either method, when a status fetch is answered
    with status 200 and the load status [LOAD_FAILED], the call returns
    [LOAD_FAILED] as its value and raises nothing. *)
Theorem failed_is_returned m limit key url :
  let out := generate_node m limit key url [] in
  forall i r,
    fetched out.1 !! i = Some r ->
    reports r LOAD_FAILED ->
    out.2 = inr (JStr LOAD_FAILED).
Proof.
  intros out i r Hi Hrep.
  exact (proj2 (call_final m limit key url i r _ Hi Hrep failed_stops)).
Qed.

(** C9: in every call, for every budget and whatever the endpoint answers,
    a status fetch that reads [LOAD_COMPLETED] or [LOAD_FAILED] is the last
    fetch of the call, and the call returns the status it read. *)
Theorem terminal_status_is_final m limit key url :
  let out := generate_node m limit key url [] in
  forall i r code,
    fetched out.1 !! i = Some r ->
    reports r code ->
    code = LOAD_COMPLETED \/ code = LOAD_FAILED ->
    fetches out.1 = S i /\ out.2 = inr (JStr code).
Proof.
  intros out i r code Hi Hrep [-> | ->].
  - exact (call_final m limit key url i r _ Hi Hrep completed_stops).
  - exact (call_final m limit key url i r _ Hi Hrep failed_stops).
Qed.

(** ** The budget as a precondition *)

Lemma bare_submission_lookups j q :
  bare_submission j q ->
  load_id j = inr q /\ overall_status j = inl (KeyError OVERALLSTATUS).
Proof.
  intros (fields & p & -> & Hp & Hq & Hnone).
  unfold load_id, overall_status. cbn [subscript].
  rewrite Hp. cbn [subscript]. now rewrite Hq, Hnone.
Qed.

(** C10: let the submission be accepted with an answer that holds a load id
    and no overall status.  With a budget of 0 (or less) the loop body never
    runs and the call raises the [KeyError] of the missing overall status,
    without a status fetch; with the budget [None] the call raises a
    [TypeError], without a status fetch; so a call that returns a value has
    an integer budget of at least 1. *)
Theorem budget_precondition m key url q :
  status_code (post_answer url (request_payload m key)) = HTTP_OK ->
  bare_submission (resp_json (post_answer url (request_payload m key))) q ->
  (forall n, n <= 0 ->
     let out := generate_node m (Some n) key url [] in
     fetches out.1 = 0%nat /\ out.2 = inl (KeyError OVERALLSTATUS)) /\
  (let out := generate_node m None key url [] in
   fetches out.1 = 0%nat /\ out.2 = inl TypeError) /\
  (forall limit v,
     (generate_node m limit key url []).2 = inr v ->
     exists n, limit = Some n /\ 1 <= n).
Proof.
  intros Hcode Hbare.
  destruct (bare_submission_lookups _ _ Hbare) as [Hid Hstatus].
  assert (Hzero : forall n, n <= 0 ->
            let out := generate_node m (Some n) key url [] in
            fetches out.1 = 0%nat /\ out.2 = inl (KeyError OVERALLSTATUS)).
  { intros n Hn out.
    destruct (accepted_polls m n key url q (conj Hcode Hid))
      as (tr & res & Hrun & Ht & Hres).
    fold out in Ht, Hres.
    replace (Z.to_nat n) with 0%nat in Hrun by lia.
    inversion Hrun; subst. rewrite Ht, Hres. cbn [returned].
    now rewrite Hstatus. }
  assert (Hnone : let out := generate_node m None key url [] in
            fetches out.1 = 0%nat /\ out.2 = inl TypeError).
  { intros out.
    pose proof (generate_node_call m None key url) as Hcall. fold out in Hcall.
    inversion Hcall as [Hbad|e _ Hid'|q' _ _ _|q' n tr res _ _ Hn];
      [contradiction|congruence|auto|discriminate]. }
  split; [exact Hzero|]. split; [exact Hnone|].
  intros [n|] v Hv.
  - exists n. split; [reflexivity|].
    destruct (Z_le_gt_dec n 0) as [Hle|Hgt]; [|lia].
    destruct (Hzero n Hle) as [_ Hraise]. cbv zeta in Hraise. congruence.
  - destruct Hnone as [_ Hraise]. congruence.
Qed.

(** ** The two payloads *)

(** C2, amended: [create_node] posts ["queueRequest"] as ["TRUE"] and
    ["updateSingleCardinalityProperties"] as ["FALSE"]; [upsert_node] posts
    no ["queueRequest"] field at all and
    ["updateSingleCardinalityProperties"] as ["TRUE"]; apart from these two
    keys the two payloads for the same key are the same map. *)
Theorem payloads_differ_in_two_fields (key : option string) :
  create_payload key !! "queueRequest" = Some "TRUE" /\
  create_payload key !! "updateSingleCardinalityProperties" = Some "FALSE" /\
  upsert_payload key !! "queueRequest" = None /\
  upsert_payload key !! "updateSingleCardinalityProperties" = Some "TRUE" /\
  delete "queueRequest"
    (delete "updateSingleCardinalityProperties" (create_payload key)) =
  delete "updateSingleCardinalityProperties" (upsert_payload key).
Proof.
  unfold create_payload, upsert_payload.
  split; [|split; [|split; [|split]]].
  - rewrite lookup_insert_ne by done. apply lookup_insert_eq.
  - apply lookup_insert_eq.
  - rewrite !lookup_insert_ne by done. apply lookup_empty.
  - apply lookup_insert_eq.
  - rewrite !delete_insert_eq.
    rewrite (delete_insert_ne _ "updateSingleCardinalityProperties" "queueRequest")
      by done.
    rewrite delete_insert_eq.
    rewrite (delete_id _ "queueRequest"); [reflexivity|].
    rewrite lookup_delete_ne by done.
    rewrite !lookup_insert_ne by done. apply lookup_empty.
Qed.

End Properties.

(** * The properties on the scripted endpoint *)

(** The payload of [upsert_node] has no ["queueRequest"] field, so it does
    not post that field as ["FALSE"]. *)
Lemma upsert_payload_without_queue_request :
  @upsert_payload loader_constants sample_config (Some "nodes.csv")
    !! "queueRequest" <> Some "FALSE".
Proof. vm_compute. discriminate. Qed.

#[local] Existing Instances loader_constants sample_config sample_builtins.

Ltac run_sample := vm_compute; reflexivity.

Ltac sample_transitional :=
  split; [run_sample|exists (JStr "LOAD_IN_PROGRESS"); split; run_sample].

(** Three rounds of a load in progress with a budget of 3. *)
Lemma poll_budget_exhausted_witness :
  let endpoint := scripted accepted_response [] in
  let out := sample_call accepted_response [] UPSERT (Some 3) in
  out.1 = submitted "https://loader" (request_payload UPSERT (Some "nodes.csv")) ++
          transitional_rounds "https://loader/load-1" 0 3 /\
  fetches out.1 = 3%nat /\
  exists st,
    overall_status (resp_json (get_answer 2 "https://loader/load-1")) = inr st /\
    py_in st stopping = false /\
    st <> JStr "LOAD_FAILED" /\
    out.2 = inr st.
Proof.
  intros endpoint.
  refine (poll_budget_exhausted (endpoint := endpoint) UPSERT 3
            (Some "nodes.csv") "https://loader" (JStr "load-1") _ _ _).
  - lia.
  - split; run_sample.
  - intros [|[|[|i]]] _; sample_transitional.
Defined.

(** A load that is queued at the first fetch. *)
Lemma in_queue_stops_polling_witness :
  let out := sample_call accepted_response [status_response "LOAD_IN_QUEUE"]
               CREATE (Some 5) in
  fetches out.1 = 1%nat /\
  sleeps out.1 = [2; 1] /\
  out.2 = inr (JStr "LOAD_IN_QUEUE").
Proof.
  refine (in_queue_stops_polling
            (endpoint := scripted accepted_response [status_response "LOAD_IN_QUEUE"])
            CREATE 5 (Some "nodes.csv") "https://loader" (JStr "load-1") _ _ _).
  - lia.
  - split; run_sample.
  - split; run_sample.
Defined.

(** A load that is completed at the first fetch. *)
Lemma completed_at_first_fetch_witness :
  let out := sample_call accepted_response [status_response "LOAD_COMPLETED"]
               UPSERT (Some 5) in
  fetches out.1 = 1%nat /\
  sleeps out.1 = [2; 1] /\
  out.2 = inr (JStr "LOAD_COMPLETED").
Proof.
  refine (completed_at_first_fetch
            (endpoint := scripted accepted_response [status_response "LOAD_COMPLETED"])
            UPSERT 5 (Some "nodes.csv") "https://loader" (JStr "load-1") _ _ _).
  - lia.
  - split; run_sample.
  - split; run_sample.
Defined.

(** Two rounds in progress, then the failed load, with [upsert_node]. *)
Lemma failed_after_two_rounds_witness :
  let out := sample_call accepted_response failing_script UPSERT (Some 5) in
  fetches out.1 = 3%nat /\
  out.2 = inr (JStr "LOAD_FAILED") /\
  error_logs out.1 = ["status neptune -> {...}"].
Proof.
  refine (failed_after_two_rounds
            (endpoint := scripted accepted_response failing_script)
            UPSERT 5 (Some "nodes.csv") "https://loader" (JStr "load-1")
            _ _ _ _ _).
  - lia.
  - split; run_sample.
  - sample_transitional.
  - sample_transitional.
  - split; run_sample.
Defined.

(** A submission answered with status 400. *)
Lemma rejected_submission_witness :
  let out := sample_call rejected_response [] CREATE (Some 5) in
  out.1 = submitted "https://loader" (request_payload CREATE (Some "nodes.csv")) /\
  fetches out.1 = 0%nat /\
  out.2 = inl (Exception [JStr "Error to post neptune -> ";
                          resp_json rejected_response]).
Proof.
  refine (rejected_submission (endpoint := scripted rejected_response [])
            CREATE (Some 5) (Some "nodes.csv") "https://loader" _).
  vm_compute. discriminate.
Defined.

(** The second of five fetches answered with status 500. *)
Lemma poll_error_aborts_witness :
  let out := sample_call accepted_response [in_progress; Response 500 JNull]
               CREATE (Some 5) in
  fetches out.1 = 2%nat /\
  (exists u, last out.1 = Some (EvGet u (Response 500 JNull))) /\
  (exists n, Some 5 = Some n /\ (2 <= Z.to_nat n)%nat) /\
  out.2 = inl (Exception [JStr "error fetching status neptune"]).
Proof.
  refine (poll_error_aborts
            (endpoint := scripted accepted_response [in_progress; Response 500 JNull])
            CREATE (Some 5) (Some "nodes.csv") "https://loader"
            1%nat (Response 500 JNull) _ _).
  - run_sample.
  - vm_compute. discriminate.
Defined.

(** The third fetch reads the failed load. *)
Lemma failed_is_returned_witness :
  (sample_call accepted_response failing_script CREATE (Some 5)).2 =
  inr (JStr "LOAD_FAILED").
Proof.
  refine (failed_is_returned
            (endpoint := scripted accepted_response failing_script)
            CREATE (Some 5) (Some "nodes.csv") "https://loader"
            2%nat (status_response "LOAD_FAILED") _ _).
  - run_sample.
  - split; run_sample.
Defined.

(** The second of four fetches reads the completed load. *)
Lemma terminal_status_is_final_witness :
  let out := sample_call accepted_response
               [in_progress; status_response "LOAD_COMPLETED"]
               UPSERT (Some 4) in
  fetches out.1 = 2%nat /\ out.2 = inr (JStr "LOAD_COMPLETED").
Proof.
  refine (terminal_status_is_final
            (endpoint := scripted accepted_response
                           [in_progress; status_response "LOAD_COMPLETED"])
            UPSERT (Some 4) (Some "nodes.csv") "https://loader"
            1%nat (status_response "LOAD_COMPLETED") "LOAD_COMPLETED" _ _ _).
  - run_sample.
  - split; run_sample.
  - left. reflexivity.
Defined.

(** The accepted submission of the scripted endpoint, with the budgets 0 and
    [None]. *)
Lemma budget_precondition_witness :
  (forall n, n <= 0 ->
     let out := sample_call accepted_response [] CREATE (Some n) in
     fetches out.1 = 0%nat /\ out.2 = inl (KeyError "overallStatus")) /\
  (let out := sample_call accepted_response [] CREATE None in
   fetches out.1 = 0%nat /\ out.2 = inl TypeError) /\
  (forall limit v,
     (sample_call accepted_response [] CREATE limit).2 = inr v ->
     exists n, limit = Some n /\ 1 <= n).
Proof.
  refine (budget_precondition (endpoint := scripted accepted_response [])
            CREATE (Some "nodes.csv") "https://loader" (JStr "load-1") _ _).
  - run_sample.
  - exists {[ "payload" := JObj {[ "loadId" := JStr "load-1" ]} ]},
           {[ "loadId" := JStr "load-1" ]}.
    split; [reflexivity|]. split; [run_sample|]. split; run_sample.
Defined.

(** * Further properties of the two methods *)

Section Further.
Context {constants : RplusConstants} {config : Config}
  {builtins : Builtins} {endpoint : Endpoint}.

Lemma info_logs_app (t1 t2 : list event) :
  info_logs (t1 ++ t2) = info_logs t1 ++ info_logs t2.
Proof. unfold info_logs. apply omap_app. Qed.

Lemma posts_app (t1 t2 : list event) : posts (t1 ++ t2) = posts t1 ++ posts t2.
Proof. unfold posts. apply omap_app. Qed.

Lemma fetch_urls_app (t1 t2 : list event) :
  fetch_urls (t1 ++ t2) = fetch_urls t1 ++ fetch_urls t2.
Proof. unfold fetch_urls. apply omap_app. Qed.

Lemma total_pause_app (t1 t2 : list event) :
  total_pause (t1 ++ t2) = total_pause t1 + total_pause t2.
Proof.
  unfold total_pause. rewrite sleeps_app.
  induction (sleeps t1) as [|x l IH]; cbn [app foldr]; lia.
Qed.

(** The shape of every call: the submission alone and an exception, or the
    submission followed by a run of the loop. *)
Lemma call_cases m limit key url :
  let out := generate_node m limit key url [] in
  (out.1 = submitted url (request_payload m key) /\ exists e, out.2 = inl e) \/
  (exists q n tr res,
     accepted m key url q /\
     limit = Some n /\
     poll_run (logs_failure m) (status_url url q) 0 (Z.to_nat n)
       (resp_json (post_answer url (request_payload m key))) tr res /\
     out.1 = submitted url (request_payload m key) ++ tr /\
     out.2 = returned res).
Proof.
  intros out.
  pose proof (generate_node_call m limit key url) as Hcall. fold out in Hcall.
  inversion Hcall as [Hbad Ht Hres|e Hok Hid Ht Hres|q Hok Hid Hnone Ht Hres
                     |q n tr res Hok Hid Hn Hrun Ht Hres].
  - left. eauto.
  - left. eauto.
  - left. eauto.
  - right. exists q, n, tr, res. repeat split; auto.
Qed.

Ltac by_call_cases m limit key url out :=
  let Hcases := fresh "Hcases" in
  pose proof (call_cases m limit key url) as Hcases;
  cbv zeta in Hcases; fold out in Hcases.

(** ** The budget bounds the fetches *)

(** X1: a call never does more status fetches than its budget: at most
    [limit] of them for an integer [limit] (none when it is negative), and
    none when [limit] is [None]. *)
Theorem fetches_within_budget m limit key url :
  (fetches (generate_node m limit key url []).1 <= budget limit)%nat.
Proof.
  set (out := generate_node m limit key url []).
  by_call_cases m limit key url out.
  destruct Hcases as [[Ht _]|(q & n & tr & res & _ & -> & Hrun & Ht & _)];
    rewrite Ht.
  - cbn. lia.
  - rewrite fetches_submitted. exact (poll_run_budget _ _ _ _ _ _ _ Hrun).
Qed.

(** ** Answers that lack a field *)

Lemma poll_run_lookup_error lf u c n response tr res :
  poll_run lf u c n response tr res ->
  forall i r e,
    fetched tr !! i = Some r ->
    status_code r = HTTP_OK ->
    overall_status (resp_json r) = inl e ->
    fetches tr = S i /\
    last tr = Some (EvInfo (status_message r)) /\
    res = inl e.
Proof.
  unfold fetches.
  induction 1 as [|c n response tr res Htr _ IH|c n response tail res _ Hend];
    intros i r e Hi Hcode He.
  - discriminate.
  - rewrite fetched_round in Hi |- *. destruct i as [|i]; cbn in Hi.
    + injection Hi as <-. destruct Htr as (_ & st & Hst & _). congruence.
    + destruct (IH i r e Hi Hcode He) as (Hlen & Hlast & ->).
      cbn [length]. rewrite Hlen, !last_app, Hlast. auto.
  - rewrite (loop_end_fetched _ _ _ _ _ Hend) in Hi |- *.
    destruct i as [|i]; [|discriminate]. injection Hi as <-.
    split; [reflexivity|].
    destruct Hend as [Hbad|e' _ He'|st _ Hst _];
      [contradiction| |congruence].
    split; [reflexivity|congruence].
Qed.

(** X2: in every call, a status fetch answered with status 200 whose body
    lacks the overall status (the lookup
    [response[PAYLOAD][OVERALLSTATUS][STATUS]] raises) is the last fetch:
    the body is still logged at info level, that record is the last event,
    and the call raises the exception of the lookup. *)
Theorem status_lookup_error_aborts m limit key url :
  let out := generate_node m limit key url [] in
  forall i r e,
    fetched out.1 !! i = Some r ->
    status_code r = HTTP_OK ->
    overall_status (resp_json r) = inl e ->
    fetches out.1 = S i /\
    last out.1 = Some (EvInfo (status_message r)) /\
    out.2 = inl e.
Proof.
  intros out i r e Hi Hcode He.
  by_call_cases m limit key url out.
  destruct Hcases as [[Ht _]|(q & n & tr & res & _ & -> & Hrun & Ht & Hres)];
    rewrite Ht in Hi |- *.
  - discriminate.
  - change (fetched tr !! i = Some r) in Hi.
    destruct (poll_run_lookup_error _ _ _ _ _ _ _ Hrun i r e Hi Hcode He)
      as (Hlen & Hlast & ->).
    rewrite fetches_submitted, last_app, Hlast, Hres. auto.
Qed.

(** X3: when the submission is answered with status 200 and a body from
    which the load id cannot be read, a call raises the exception of that
    lookup after the submission and its pause, without a status fetch,
    whatever the budget, also when it is [None]. *)
Theorem missing_load_id m limit key url e :
  status_code (post_answer url (request_payload m key)) = HTTP_OK ->
  load_id (resp_json (post_answer url (request_payload m key))) = inl e ->
  let out := generate_node m limit key url [] in
  out.1 = submitted url (request_payload m key) /\ out.2 = inl e.
Proof.
  intros Hcode Hid out.
  pose proof (generate_node_call m limit key url) as Hcall. fold out in Hcall.
  inversion Hcall as [Hbad|e' _ Hid'|q _ Hid'|q n tr res _ Hid'];
    [contradiction| |congruence..].
  split; [reflexivity|congruence].
Qed.

(** ** One submission per call *)

Lemma loop_end_posts lf u r tail res : loop_end lf u r tail res -> posts tail = [].
Proof.
  intros Hend. destruct Hend; [reflexivity..|].
  rewrite posts_app. now destruct (lf && py_eq_str st LOAD_FAILED).
Qed.

Lemma poll_run_posts lf u c n response tr res :
  poll_run lf u c n response tr res -> posts tr = [].
Proof.
  induction 1 as [|? ? ? ? ? _ _ IH|? ? ? ? ? _ Hend]; [reflexivity| |].
  - exact IH.
  - exact (loop_end_posts _ _ _ _ _ Hend).
Qed.

(** X4: every call, also one whose submission is rejected, starts with the
    [post] of its payload followed by the pause of 2 seconds, and posts
    nothing else. *)
Theorem one_submission_then_pause m limit key url :
  let out := generate_node m limit key url [] in
  posts out.1 = [(url, request_payload m key)] /\
  exists tr, out.1 = EvPost url (request_payload m key) :: EvSleep 2 :: tr.
Proof.
  intros out. by_call_cases m limit key url out.
  destruct Hcases as [[Ht _]|(q & n & tr & res & _ & _ & Hrun & Ht & _)];
    rewrite Ht.
  - split; [reflexivity|]. now exists [].
  - rewrite posts_app, (poll_run_posts _ _ _ _ _ _ _ Hrun).
    split; [reflexivity|]. now exists tr.
Qed.

(** ** What is logged *)

Lemma poll_run_info_logs lf u c n response tr res :
  poll_run lf u c n response tr res ->
  info_logs tr =
  status_message <$> filter (fun r => status_code r = HTTP_OK) (fetched tr).
Proof.
  induction 1 as [|c n response tr res Htr _ IH|c n response tail res _ Hend].
  - reflexivity.
  - rewrite fetched_round, filter_cons_True by apply Htr.
    cbn [fmap list_fmap]. rewrite <- IH. reflexivity.
  - rewrite (loop_end_fetched _ _ _ _ _ Hend).
    destruct Hend as [Hbad|e Hcode _|st Hcode _ _].
    + now rewrite filter_cons_False.
    + now rewrite filter_cons_True.
    + rewrite filter_cons_True by done. rewrite info_logs_app.
      now destruct (lf && py_eq_str st LOAD_FAILED).
Qed.

(** X5: the info-level log of a call holds one record for each status fetch
    answered with status 200, in order, each the text
    ["status neptune -> "] followed by the dump of that response; a fetch
    answered with another status is not logged. *)
Theorem info_log_per_fetch m limit key url :
  let out := generate_node m limit key url [] in
  info_logs out.1 =
  status_message <$> filter (fun r => status_code r = HTTP_OK) (fetched out.1).
Proof.
  intros out. by_call_cases m limit key url out.
  destruct Hcases as [[Ht _]|(q & n & tr & res & _ & _ & Hrun & Ht & _)];
    rewrite Ht.
  - reflexivity.
  - rewrite info_logs_app, fetched_app.
    exact (poll_run_info_logs _ _ _ _ _ _ _ Hrun).
Qed.

Lemma not_stopping_not_failed st :
  py_in st stopping = false -> py_eq_str st LOAD_FAILED = false.
Proof.
  unfold py_in, stopping. cbn [existsb].
  destruct (py_eq_str st LOAD_FAILED); [|reflexivity].
  now rewrite orb_true_r.
Qed.

Lemma transitional_not_failed r : transitional r -> reports_failed r = false.
Proof.
  intros (Hcode & st & Hst & Hin). unfold reports_failed.
  rewrite Hst, (not_stopping_not_failed _ Hin). apply andb_false_r.
Qed.

Lemma poll_run_error_logs lf u c n response tr res :
  poll_run lf u c n response tr res ->
  error_logs tr =
  if lf
  then status_message <$> filter (fun r => Is_true (reports_failed r)) (fetched tr)
  else [].
Proof.
  induction 1 as [|c n response tr res Htr _ IH|c n response tail res _ Hend].
  - now destruct lf.
  - rewrite fetched_round, filter_cons_False
      by (rewrite (transitional_not_failed _ Htr); exact id).
    exact IH.
  - rewrite (loop_end_fetched _ _ _ _ _ Hend).
    destruct Hend as [Hbad|e Hcode He|st Hcode Hst _].
    + rewrite filter_cons_False; [now destruct lf|].
      unfold reports_failed. rewrite (proj2 (Z.eqb_neq _ _) Hbad). exact id.
    + rewrite filter_cons_False; [now destruct lf|].
      unfold reports_failed. rewrite He, andb_false_r. exact id.
    + rewrite error_logs_app.
      assert (reports_failed (get_answer c u) = py_eq_str st LOAD_FAILED) as Hrf.
      { unfold reports_failed. rewrite Hcode, Hst. reflexivity. }
      destruct lf; cbn [andb]; [|reflexivity].
      destruct (py_eq_str st LOAD_FAILED).
      * rewrite filter_cons_True by (rewrite Hrf; exact I). reflexivity.
      * rewrite filter_cons_False by (rewrite Hrf; exact id). reflexivity.
Qed.

(** X6: [create_node] logs nothing at error level, whatever the endpoint
    answers and whatever the budget. *)
Theorem create_node_logs_no_error limit key url :
  error_logs (create_node limit key url []).1 = [].
Proof.
  set (out := generate_node CREATE limit key url []).
  change (error_logs out.1 = []).
  by_call_cases CREATE limit key url out.
  destruct Hcases as [[Ht _]|(q & n & tr & res & _ & _ & Hrun & Ht & _)];
    rewrite Ht; [reflexivity|].
  rewrite error_logs_app. exact (poll_run_error_logs _ _ _ _ _ _ _ Hrun).
Qed.

(** X7: the error-level log of [upsert_node] holds one record for each
    status fetch answered with status 200 and the overall status
    [LOAD_FAILED], the text ["status neptune -> "] followed by the dump of
    that response, and nothing else: HTTP errors, missing fields and the
    other statuses are not logged at error level. *)
Theorem upsert_node_error_log limit key url :
  let out := upsert_node limit key url [] in
  error_logs out.1 =
  status_message <$> filter (fun r => Is_true (reports_failed r)) (fetched out.1).
Proof.
  intros out0.
  set (out := generate_node UPSERT limit key url []).
  change (error_logs out.1 =
          status_message <$>
            filter (fun r => Is_true (reports_failed r)) (fetched out.1)).
  by_call_cases UPSERT limit key url out.
  destruct Hcases as [[Ht _]|(q & n & tr & res & _ & _ & Hrun & Ht & _)];
    rewrite Ht; [reflexivity|].
  rewrite error_logs_app, fetched_app.
  exact (poll_run_error_logs _ _ _ _ _ _ _ Hrun).
Qed.

(** ** Pauses *)

Lemma loop_end_pause lf u r tail res :
  loop_end lf u r tail res -> 0 <= total_pause tail <= 4.
Proof.
  intros Hend. destruct Hend; [cbn; lia..|].
  rewrite total_pause_app.
  destruct (lf && py_eq_str st LOAD_FAILED); cbn; lia.
Qed.

Lemma poll_run_pause lf u c n response tr res :
  poll_run lf u c n response tr res ->
  0 <= total_pause tr <= 4 * Z.of_nat (fetches tr).
Proof.
  unfold fetches.
  induction 1 as [|c n response tr res _ _ IH|c n response tail res _ Hend].
  - cbn. lia.
  - rewrite fetched_round. cbn [length].
    change (total_pause (polled u (get_answer c u) ++ [EvSleep 3] ++ tr))
      with (1 + (3 + total_pause tr)).
    lia.
  - rewrite (loop_end_fetched _ _ _ _ _ Hend). cbn [length].
    pose proof (loop_end_pause _ _ _ _ _ Hend). lia.
Qed.

(** X8: a call sleeps at least the 2 seconds after the submission and at
    most 4 more seconds for each status fetch, hence at most
    [2 + 4 * limit] seconds in all. *)
Theorem pause_bound m limit key url :
  let out := generate_node m limit key url [] in
  2 <= total_pause out.1 <= 2 + 4 * Z.of_nat (fetches out.1) /\
  total_pause out.1 <= 2 + 4 * Z.of_nat (budget limit).
Proof.
  intros out. by_call_cases m limit key url out.
  destruct Hcases as [[Ht _]|(q & n & tr & res & _ & -> & Hrun & Ht & _)];
    rewrite Ht.
  - cbn. lia.
  - rewrite total_pause_app, fetches_submitted.
    pose proof (poll_run_pause _ _ _ _ _ _ _ Hrun).
    pose proof (poll_run_budget _ _ _ _ _ _ _ Hrun).
    change (total_pause (submitted url (request_payload m key))) with 2.
    cbn [budget]. lia.
Qed.

(** ** What a call returns *)

Lemma last_json_end lf u r tail res response :
  loop_end lf u r tail res -> last_json response tail = resp_json r.
Proof.
  intros Hend. unfold last_json.
  now rewrite (loop_end_fetched _ _ _ _ _ Hend).
Qed.

Lemma poll_run_returns lf u c n response tr res response' :
  poll_run lf u c n response tr res ->
  res = inr response' ->
  response' = last_json response tr /\
  Forall (fun r => status_code r = HTTP_OK) (fetched tr) /\
  (fetches tr = n \/
   exists st, overall_status response' = inr st /\ py_in st stopping = true).
Proof.
  unfold fetches.
  induction 1 as [|c n response tr res Htr _ IH|c n response tail res _ Hend];
    intros Hres.
  - injection Hres as <-. split; [reflexivity|]. split; [constructor|].
    now left.
  - destruct (IH Hres) as (Hlast & Hall & Hstop).
    change (polled u (get_answer c u) ++ [EvSleep 3] ++ tr)
      with ((polled u (get_answer c u) ++ [EvSleep 3]) ++ tr).
    rewrite last_json_round, fetched_app.
    split; [exact Hlast|]. split.
    + constructor; [apply Htr|exact Hall].
    + destruct Hstop as [Hlen|Hstop]; [left|now right].
      rewrite length_app, Hlen. reflexivity.
  - rewrite (last_json_end _ _ _ _ _ response Hend).
    rewrite (loop_end_fetched _ _ _ _ _ Hend).
    destruct Hend as [Hbad|e Hcode He|st Hcode Hst Hin]; [discriminate..|].
    injection Hres as <-. split; [reflexivity|]. split.
    + now repeat constructor.
    + right. now exists st.
Qed.

Lemma returned_value res v :
  returned res = inr v ->
  exists response', res = inr response' /\ overall_status response' = inr v.
Proof.
  destruct res as [e|response']; [discriminate|].
  intros Hv. now exists response'.
Qed.

(** X9: when a call returns a status outside the list
    [[LOAD_COMPLETED, LOAD_FAILED, LOAD_IN_QUEUE]], the budget is used up:
    the call did exactly [limit] status fetches (none for a negative
    [limit]). *)
Theorem transitional_result_means_exhausted m limit key url :
  let out := generate_node m limit key url [] in
  forall v,
    out.2 = inr v ->
    py_in v stopping = false ->
    fetches out.1 = budget limit.
Proof.
  intros out v Hv Hin. by_call_cases m limit key url out.
  destruct Hcases as [[_ [e He]]|(q & n & tr & res & _ & -> & Hrun & Ht & Hres)];
    [congruence|].
  rewrite Hres in Hv.
  destruct (returned_value _ _ Hv) as (response' & -> & Hst).
  destruct (poll_run_returns _ _ _ _ _ _ _ _ Hrun eq_refl)
    as (_ & _ & [Hlen|(st & Hst' & Hin')]).
  - now rewrite Ht, fetches_submitted.
  - congruence.
Qed.

(** X10: the value a call returns is the overall status of the last
    response it fetched, which has status 200; a call that returns without
    a fetch (a budget of 0 or less) returns the overall status read from the
    body of the answer to the submission. *)
Theorem result_is_last_status m limit key url :
  let out := generate_node m limit key url [] in
  forall v,
    out.2 = inr v ->
    match last (fetched out.1) with
    | Some r => status_code r = HTTP_OK /\ overall_status (resp_json r) = inr v
    | None =>
        overall_status (resp_json (post_answer url (request_payload m key))) =
        inr v
    end.
Proof.
  intros out v Hv. by_call_cases m limit key url out.
  destruct Hcases as [[_ [e He]]|(q & n & tr & res & _ & -> & Hrun & Ht & Hres)];
    [congruence|].
  rewrite Hres in Hv.
  destruct (returned_value _ _ Hv) as (response' & -> & Hst).
  destruct (poll_run_returns _ _ _ _ _ _ _ _ Hrun eq_refl) as (Hlast & Hall & _).
  rewrite Ht. change (fetched (submitted url (request_payload m key) ++ tr))
    with (fetched tr).
  unfold last_json in Hlast.
  destruct (last (fetched tr)) as [r|] eqn:Hr; subst response'.
  - split; [|exact Hst].
    rewrite Forall_forall in Hall. apply Hall.
    apply last_Some in Hr as [l' ->]. set_solver.
  - exact Hst.
Qed.

Lemma poll_run_prior lf u c n response tr res :
  poll_run lf u c n response tr res ->
  forall i r,
    fetched tr !! i = Some r -> (S i < fetches tr)%nat -> transitional r.
Proof.
  unfold fetches.
  induction 1 as [|c n response tr res Htr _ IH|c n response tail res _ Hend];
    intros i r Hi Hlt.
  - discriminate.
  - rewrite fetched_round in Hi, Hlt. destruct i as [|i]; cbn in Hi, Hlt.
    + now injection Hi as <-.
    + apply (IH i r Hi). lia.
  - rewrite (loop_end_fetched _ _ _ _ _ Hend) in Hlt. cbn in Hlt. lia.
Qed.

(** X11: in every call, each status fetch but the last was answered with
    status 200 and an overall status outside the stopping list: the loop
    goes on to another fetch after such an answer only. *)
Theorem earlier_fetches_transitional m limit key url :
  let out := generate_node m limit key url [] in
  forall i r,
    fetched out.1 !! i = Some r ->
    (S i < fetches out.1)%nat ->
    transitional r.
Proof.
  intros out i r Hi Hlt. by_call_cases m limit key url out.
  destruct Hcases as [[Ht _]|(q & n & tr & res & _ & _ & Hrun & Ht & _)];
    rewrite Ht in Hi, Hlt.
  - discriminate.
  - exact (poll_run_prior _ _ _ _ _ _ _ Hrun i r Hi Hlt).
Qed.

(** X12: in every call, a status fetch that reads [LOAD_IN_QUEUE], at the
    first iteration or at a later one, is the last fetch, and the call
    returns [LOAD_IN_QUEUE]. *)
Theorem in_queue_is_final m limit key url :
  let out := generate_node m limit key url [] in
  forall i r,
    fetched out.1 !! i = Some r ->
    reports r LOAD_IN_QUEUE ->
    fetches out.1 = S i /\ out.2 = inr (JStr LOAD_IN_QUEUE).
Proof.
  intros out i r Hi Hrep.
  exact (call_final m limit key url i r _ Hi Hrep in_queue_stops).
Qed.

(** ** The URL of the status fetches *)

Lemma loop_end_urls lf u r tail res :
  loop_end lf u r tail res -> fetch_urls tail = [u].
Proof.
  intros Hend. destruct Hend; [reflexivity..|].
  rewrite fetch_urls_app. now destruct (lf && py_eq_str st LOAD_FAILED).
Qed.

Lemma poll_run_urls lf u c n response tr res :
  poll_run lf u c n response tr res ->
  fetch_urls tr = replicate (fetches tr) u.
Proof.
  unfold fetches.
  induction 1 as [|c n response tr res _ _ IH|c n response tail res _ Hend].
  - reflexivity.
  - rewrite fetched_round. cbn [length replicate]. rewrite <- IH. reflexivity.
  - rewrite (loop_end_fetched _ _ _ _ _ Hend).
    exact (loop_end_urls _ _ _ _ _ Hend).
Qed.

(** X13: every status fetch of a call goes to the same URL, the URL of the
    call followed by ["/"] and the load id read from the answer to the
    submission. *)
Theorem fetches_use_load_id m limit key url :
  let out := generate_node m limit key url [] in
  fetch_urls out.1 = [] \/
  exists q,
    accepted m key url q /\
    fetch_urls out.1 = replicate (fetches out.1) (url +:+ "/" +:+ py_str q).
Proof.
  intros out. by_call_cases m limit key url out.
  destruct Hcases as [[Ht _]|(q & n & tr & res & Hacc & _ & Hrun & Ht & _)];
    rewrite Ht.
  - now left.
  - right. exists q. split; [exact Hacc|].
    rewrite fetch_urls_app, fetches_submitted.
    exact (poll_run_urls _ _ _ _ _ _ _ Hrun).
Qed.

(** ** The exceptions of a call *)

Lemma subscript_error j k e :
  subscript j k = inl e -> e = KeyError k \/ e = TypeError.
Proof.
  destruct j as [| | | | |fields]; cbn; try (intros [= <-]; now right).
  destruct (fields !! k); [discriminate|]. intros [= <-]. now left.
Qed.

Lemma load_id_error j e args : load_id j = inl e -> e <> Exception args.
Proof.
  unfold load_id. intros He.
  destruct (subscript j PAYLOAD) as [e'|p] eqn:Hp.
  - injection He as <-. destruct (subscript_error _ _ _ Hp); now subst.
  - destruct (subscript_error _ _ _ He); now subst.
Qed.

Lemma overall_status_error j e args :
  overall_status j = inl e -> e <> Exception args.
Proof.
  unfold overall_status. intros He.
  destruct (subscript j PAYLOAD) as [e'|p] eqn:Hp.
  - injection He as <-. destruct (subscript_error _ _ _ Hp); now subst.
  - destruct (subscript p OVERALLSTATUS) as [e'|o] eqn:Ho.
    + injection He as <-. destruct (subscript_error _ _ _ Ho); now subst.
    + destruct (subscript_error _ _ _ He); now subst.
Qed.

Lemma poll_run_exception lf u c n response tr res args :
  poll_run lf u c n response tr res ->
  res = inl (Exception args) ->
  args = [JStr "error fetching status neptune"] /\
  exists r,
    last (fetched tr) = Some r /\
    status_code r <> HTTP_OK /\
    last tr = Some (EvGet u r).
Proof.
  induction 1 as [|c n response tr res Htr _ IH|c n response tail res _ Hend];
    intros Hres.
  - discriminate.
  - destruct (IH Hres) as (-> & r & Hr & Hbad & Hlast).
    split; [reflexivity|]. exists r.
    rewrite fetched_round, last_cons, Hr, !last_app, Hlast. auto.
  - destruct Hend as [Hbad|e Hcode He|st Hcode Hst Hin].
    + injection Hres as <-. split; [reflexivity|].
      exists (get_answer c u). auto.
    + injection Hres as ->. now destruct (overall_status_error _ _ args He).
    + discriminate.
Qed.

(** X14: a call that raises an [Exception] raises one of two: the one with
    the message ["Error to post neptune -> "] and the body of the answer,
    when the submission was answered with a status other than 200, and then
    nothing was fetched; or the one with the message
    ["error fetching status neptune"], when the last status fetch was
    answered with a status other than 200, and then that fetch is the last
    event.  A missing field raises a [KeyError] or a [TypeError] instead. *)
Theorem exceptions_tell_the_phase m limit key url :
  let out := generate_node m limit key url [] in
  forall args,
    out.2 = inl (Exception args) ->
    (args = [JStr "Error to post neptune -> ";
             resp_json (post_answer url (request_payload m key))] /\
     status_code (post_answer url (request_payload m key)) <> HTTP_OK /\
     fetches out.1 = 0%nat) \/
    (args = [JStr "error fetching status neptune"] /\
     exists r u,
       last (fetched out.1) = Some r /\
       status_code r <> HTTP_OK /\
       last out.1 = Some (EvGet u r)).
Proof.
  intros out args Hraise.
  pose proof (generate_node_call m limit key url) as Hcall. fold out in Hcall.
  inversion Hcall as [Hbad Ht Hres|e Hok Hid Ht Hres|q Hok Hid Hnone Ht Hres
                     |q n tr res Hok Hid Hn Hrun Ht Hres];
    rewrite <- Hres in Hraise.
  - left. injection Hraise as <-. auto.
  - injection Hraise as ->. now destruct (load_id_error _ _ args Hid).
  - discriminate.
  - right. destruct res as [e|response']; cbn [returned] in Hraise.
    + destruct (poll_run_exception _ _ _ _ _ _ _ _ Hrun Hraise)
        as (-> & r & Hr & Hbad & Hlast).
      split; [reflexivity|]. exists r, (url +:+ "/" +:+ py_str q).
      split; [exact Hr|]. split; [exact Hbad|].
      unfold status_url in Hlast. now rewrite !last_cons, Hlast.
    + now destruct (overall_status_error _ _ args Hraise).
Qed.

(** ** The two methods poll alike *)

Lemma loop_end_functional lf u r t1 r1 t2 r2 :
  loop_end lf u r t1 r1 -> loop_end lf u r t2 r2 -> t1 = t2 /\ r1 = r2.
Proof.
  intros H1 H2.
  destruct H1 as [Hbad|e Hcode He|st Hcode Hst Hin];
    destruct H2 as [Hbad'|e' Hcode' He'|st' Hcode' Hst' Hin'];
    try contradiction; try congruence; auto.
  - split; [reflexivity|congruence].
  - assert (st' = st) as -> by congruence. auto.
Qed.

Lemma poll_run_functional lf u c n response t1 r1 :
  poll_run lf u c n response t1 r1 ->
  forall t2 r2, poll_run lf u c n response t2 r2 -> t1 = t2 /\ r1 = r2.
Proof.
  induction 1 as [|c n response tr res Htr _ IH|c n response tail res Hnot Hend];
    intros t2 r2 Hrun2.
  - inversion Hrun2; subst. auto.
  - inversion Hrun2 as [|? ? ? tr2 ? _ Hrest|? ? ? ? ? Hnot' _]; subst;
      [|contradiction].
    destruct (IH _ _ Hrest) as [-> ->]. auto.
  - inversion Hrun2 as [|? ? ? ? ? Htr' _|? ? ? ? ? _ Hend']; subst;
      [contradiction|].
    exact (loop_end_functional _ _ _ _ _ _ _ Hend Hend').
Qed.

Lemma loop_end_logging u r tail res :
  loop_end false u r tail res ->
  exists tail',
    loop_end true u r tail' res /\
    fetched tail' = fetched tail /\
    sleeps tail' = sleeps tail /\
    info_logs tail' = info_logs tail.
Proof.
  intros Hend. destruct Hend as [Hbad|e Hcode He|st Hcode Hst Hin].
  - eexists. split; [now apply end_http_error|]. auto.
  - eexists. split; [now apply end_lookup_error|]. auto.
  - eexists. split; [now apply (end_stop true _ _ st)|].
    cbn [andb]. rewrite !fetched_app, !sleeps_app, !info_logs_app.
    now destruct (py_eq_str st LOAD_FAILED).
Qed.

Lemma poll_run_logging u c n response tr res :
  poll_run false u c n response tr res ->
  exists tr',
    poll_run true u c n response tr' res /\
    fetched tr' = fetched tr /\
    sleeps tr' = sleeps tr /\
    info_logs tr' = info_logs tr.
Proof.
  induction 1 as [|c n response tr res Htr _ IH|c n response tail res Hnot Hend].
  - exists []. split; [constructor|auto].
  - destruct IH as (tr' & Hrun' & Hf & Hs & Hi).
    exists (polled u (get_answer c u) ++ [EvSleep 3] ++ tr').
    split; [now apply run_round|].
    rewrite !fetched_round.
    change (sleeps (polled u (get_answer c u) ++ [EvSleep 3] ++ ?t))
      with (1 :: 3 :: sleeps t).
    change (info_logs (polled u (get_answer c u) ++ [EvSleep 3] ++ ?t))
      with (status_message (get_answer c u) :: info_logs t).
    now rewrite Hf, Hs, Hi.
  - destruct (loop_end_logging _ _ _ _ Hend) as (tail' & Hend' & Heqs).
    exists tail'. split; [now apply run_end|exact Heqs].
Qed.

(** X15: when the endpoint answers the two submissions alike, [create_node]
    and [upsert_node] with the same arguments end alike: the same value or
    the same exception, after the same status fetches with the same
    answers, the same pauses and the same info-level log. *)
Theorem create_and_upsert_poll_alike limit key url :
  post_answer url (create_payload key) = post_answer url (upsert_payload key) ->
  let created := create_node limit key url [] in
  let upserted := upsert_node limit key url [] in
  created.2 = upserted.2 /\
  fetched created.1 = fetched upserted.1 /\
  sleeps created.1 = sleeps upserted.1 /\
  info_logs created.1 = info_logs upserted.1.
Proof.
  intros Hsame created upserted.
  pose proof (create_node_call limit key url) as Hc. fold created in Hc.
  pose proof (upsert_node_call limit key url) as Hu. fold upserted in Hu.
  inversion Hc as [Hbad Ht Hres|e Hok Hid Ht Hres|q Hok Hid Hnone Ht Hres
                  |q n tr res Hok Hid Hn Hrun Ht Hres];
    inversion Hu as [Hbad' Ht' Hres'|e' Hok' Hid' Ht' Hres'
                    |q' Hok' Hid' Hnone' Ht' Hres'
                    |q' n' tr' res' Hok' Hid' Hn' Hrun' Ht' Hres'];
    rewrite ?Hsame in *; try contradiction; try congruence;
    try (split; [congruence|auto]).
  assert (q' = q) as -> by congruence.
  assert (n' = n) as -> by congruence.
  destruct (poll_run_logging _ _ _ _ _ _ Hrun) as (tr2 & Hrun2 & Hf & Hs & Hi).
  destruct (poll_run_functional _ _ _ _ _ _ _ Hrun' _ _ Hrun2) as [-> ->].
  split; [reflexivity|].
  change (fetched tr = fetched tr2 /\
          2 :: sleeps tr = 2 :: sleeps tr2 /\
          info_logs tr = info_logs tr2).
  now rewrite Hf, Hs, Hi.
Qed.

End Further.

(** * The further properties on the scripted endpoint *)

(** The second fetch is answered with a body without overall status. *)
Lemma status_lookup_error_aborts_witness :
  let out := sample_call accepted_response [in_progress; malformed_status]
               CREATE (Some 5) in
  fetches out.1 = 2%nat /\
  last out.1 = Some (EvInfo (status_message malformed_status)) /\
  out.2 = inl (KeyError "overallStatus").
Proof.
  refine (status_lookup_error_aborts
            (endpoint := scripted accepted_response [in_progress; malformed_status])
            CREATE (Some 5) (Some "nodes.csv") "https://loader"
            1%nat malformed_status (KeyError "overallStatus") _ _ _);
    run_sample.
Defined.

(** A submission accepted with a body without load id, and no budget. *)
Lemma missing_load_id_witness :
  let out := sample_call acceptance_without_id [] UPSERT None in
  out.1 = submitted "https://loader" (request_payload UPSERT (Some "nodes.csv")) /\
  out.2 = inl (KeyError "loadId").
Proof.
  refine (missing_load_id (endpoint := scripted acceptance_without_id [])
            UPSERT None (Some "nodes.csv") "https://loader"
            (KeyError "loadId") _ _);
    run_sample.
Defined.

(** Three fetches of a load in progress with a budget of 3. *)
Lemma transitional_result_means_exhausted_witness :
  fetches (sample_call accepted_response [] CREATE (Some 3)).1 = budget (Some 3).
Proof.
  refine (transitional_result_means_exhausted
            (endpoint := scripted accepted_response [])
            CREATE (Some 3) (Some "nodes.csv") "https://loader"
            (JStr "LOAD_IN_PROGRESS") _ _);
    run_sample.
Defined.

(** The failed load read at the third fetch. *)
Lemma result_is_last_status_witness :
  let endpoint := scripted accepted_response failing_script in
  let out := sample_call accepted_response failing_script UPSERT (Some 5) in
  match last (fetched out.1) with
  | Some r =>
      status_code r = HTTP_OK /\
      overall_status (resp_json r) = inr (JStr "LOAD_FAILED")
  | None =>
      overall_status
        (resp_json (post_answer "https://loader"
                      (request_payload UPSERT (Some "nodes.csv")))) =
      inr (JStr "LOAD_FAILED")
  end.
Proof.
  intros endpoint.
  refine (result_is_last_status (endpoint := endpoint)
            UPSERT (Some 5) (Some "nodes.csv") "https://loader"
            (JStr "LOAD_FAILED") _).
  run_sample.
Defined.

(** The first of the three fetches of the failing script. *)
Lemma earlier_fetches_transitional_witness :
  transitional in_progress.
Proof.
  refine (earlier_fetches_transitional
            (endpoint := scripted accepted_response failing_script)
            CREATE (Some 5) (Some "nodes.csv") "https://loader"
            0%nat in_progress _ _).
  - run_sample.
  - vm_compute. lia.
Defined.

(** A load that is queued at the second fetch. *)
Lemma in_queue_is_final_witness :
  let out := sample_call accepted_response
               [in_progress; status_response "LOAD_IN_QUEUE"]
               UPSERT (Some 5) in
  fetches out.1 = 2%nat /\ out.2 = inr (JStr "LOAD_IN_QUEUE").
Proof.
  refine (in_queue_is_final
            (endpoint := scripted accepted_response
                           [in_progress; status_response "LOAD_IN_QUEUE"])
            UPSERT (Some 5) (Some "nodes.csv") "https://loader"
            1%nat (status_response "LOAD_IN_QUEUE") _ _).
  - run_sample.
  - split; run_sample.
Defined.

(** The second fetch answered with status 500. *)
Lemma exceptions_tell_the_phase_witness :
  let endpoint := scripted accepted_response [in_progress; server_error] in
  let out := sample_call accepted_response [in_progress; server_error]
               CREATE (Some 5) in
  ([JStr "error fetching status neptune"] =
     [JStr "Error to post neptune -> ";
      resp_json (post_answer "https://loader"
                   (request_payload CREATE (Some "nodes.csv")))] /\
   status_code (post_answer "https://loader"
                  (request_payload CREATE (Some "nodes.csv"))) <> HTTP_OK /\
   fetches out.1 = 0%nat) \/
  ([JStr "error fetching status neptune"] =
     [JStr "error fetching status neptune"] /\
   exists r u,
     last (fetched out.1) = Some r /\
     status_code r <> HTTP_OK /\
     last out.1 = Some (EvGet u r)).
Proof.
  intros endpoint.
  refine (exceptions_tell_the_phase (endpoint := endpoint)
            CREATE (Some 5) (Some "nodes.csv") "https://loader"
            [JStr "error fetching status neptune"] _).
  run_sample.
Defined.

(** The failing script, through both methods. *)
Lemma create_and_upsert_poll_alike_witness :
  let created := sample_call accepted_response failing_script CREATE (Some 5) in
  let upserted := sample_call accepted_response failing_script UPSERT (Some 5) in
  created.2 = upserted.2 /\
  fetched created.1 = fetched upserted.1 /\
  sleeps created.1 = sleeps upserted.1 /\
  info_logs created.1 = info_logs upserted.1.
Proof.
  refine (create_and_upsert_poll_alike
            (endpoint := scripted accepted_response failing_script)
            (Some 5) (Some "nodes.csv") "https://loader" _).
  reflexivity.
Defined.
